(** * DISTINCT over a stream of blocks, and the file read buffer

    A shallow embedding of
    - [dbms/src/DataStreams/DistinctBlockInputStream.cpp] and
    - [dbms/src/IO/ReadBufferFromFile.cpp],
    with the properties their specification states about them. *)

From Stdlib Require Import NArith ZArith DecimalString Lia.
From stdpp Require Import numbers strings base decidable option list.

Local Open Scope N_scope.

(** ** Exceptions *)

(** The error codes the two translation units name ([extern const int] in
    namespace [ErrorCodes]); only their identity matters here. *)
Inductive ErrorCode :=
| SET_SIZE_LIMIT_EXCEEDED
| LOGICAL_ERROR
| NOT_FOUND_COLUMN_IN_BLOCK
| POSITION_OUT_OF_BOUND
| FILE_DOESNT_EXIST
| CANNOT_OPEN_FILE
| CANNOT_CLOSE_FILE.

#[global] Instance ErrorCode_eq_dec : EqDecision ErrorCode.
Proof. solve_decision. Defined.

(** [DB::Exception(message, code)]. *)
Record Exception := mkException { message : string; code : ErrorCode }.

#[global] Instance Exception_eq_dec : EqDecision Exception.
Proof. solve_decision. Defined.

(** A call either returns or throws. *)
Inductive Result (A : Type) :=
| Ok (a : A)
| Throw (e : Exception).
Arguments Ok {A} a.
Arguments Throw {A} e.

Definition bind {A B} (r : Result A) (k : A -> Result B) : Result B :=
  match r with
  | Ok a => k a
  | Throw e => Throw e
  end.

Notation "'try!' x := r 'in' k" := (bind r (fun x => k))
  (at level 10, x name, r at level 100, k at level 200).

(** [for (size_t i = 0; i < n; ++i) acc = body(i, acc);] where the body
    may throw. *)
Definition for_loop {A} (n : nat) (body : nat -> A -> Result A) (init : A)
  : Result A :=
  fold_left (fun acc i => try! a := acc in body i a) (seq 0 n) (Ok init).

(** [toString] on an unsigned integer: its decimal digits. *)
Definition toString (n : N) : string := NilZero.string_of_uint (N.to_uint n).

(** ** Columns and blocks *)

(** Modelled from the spec: the "typed values" of columns; [Field] is
    declared in a header that is not part of this development.  A value of
    a column at a row. *)
Inductive Field :=
| FNull
| FUInt64 (n : N)
| FInt64 (z : Z)
| FString (s : string).

#[global] Instance Field_eq_dec : EqDecision Field.
Proof. solve_decision. Defined.

(** Modelled from the spec: [IColumn] is declared in a header that is not
    part of this development.  A column is "either a materialized array of
    typed values (plain) or a single value logically broadcast to every
    row (constant)", here for [s] rows. *)
Inductive IColumn :=
| ColumnVector (data : list Field)
| ColumnConst (s : nat) (data : Field).

#[global] Instance IColumn_eq_dec : EqDecision IColumn.
Proof. solve_decision. Defined.

Definition isConst (c : IColumn) : bool :=
  match c with
  | ColumnVector _ => false
  | ColumnConst _ _ => true
  end.

Definition size (c : IColumn) : nat :=
  match c with
  | ColumnVector data => length data
  | ColumnConst s _ => s
  end.

(** The per-block row mask, [IColumn::Filter]: one flag per row. *)
Abbreviation Filter := (list bool).

(** Keeps the elements of [l] whose flag in [filt] is set. *)
Fixpoint select {A} (filt : Filter) (l : list A) : list A :=
  match filt, l with
  | b :: filt', x :: l' => if b then x :: select filt' l' else select filt' l'
  | _, _ => []
  end.

Definition countBytesInFilter (filt : Filter) : nat :=
  length (List.filter (fun b : bool => b) filt).

(** Modelled from the spec: [IColumn::filter] is declared in a header that
    is not part of this development.  "Select only rows where [filter[i]]
    is true": a materialized column keeps the selected values in their
    order, a constant column keeps its value and shrinks to the number of
    set flags.  Column and mask have the same length in a well-formed
    block (all columns of a block have the block's row count); other
    lengths are outside the model. *)
Definition filter (c : IColumn) (filt : Filter) : IColumn :=
  match c with
  | ColumnVector data => ColumnVector (select filt data)
  | ColumnConst _ v => ColumnConst (countBytesInFilter filt) v
  end.

(** The value of column [c] at row [i]; a constant column has its value at
    every row.  Reading past the end of a materialized column is undefined
    in the source and yields [FNull] here. *)
Definition at_row (c : IColumn) (i : nat) : Field :=
  match c with
  | ColumnVector data => nth i data FNull
  | ColumnConst _ v => v
  end.

(** Modelled from the spec: a block is "an ordered sequence of named
    columns"; [ColumnWithTypeAndName] is declared in a header that is not
    part of this development.  The data type of the column is not looked
    at by the code modelled here. *)
Record ColumnWithTypeAndName := mkColumn { column : IColumn; name : string }.

#[global] Instance ColumnWithTypeAndName_eq_dec : EqDecision ColumnWithTypeAndName.
Proof. solve_decision. Defined.

(** A block: its columns in position order.  [Block()] has no column and
    converts to [false]; that is how a stream signals its end. *)
Abbreviation Block := (list ColumnWithTypeAndName).

Definition Block_empty : Block := [].

(** [!block] *)
Definition Block_not (block : Block) : bool :=
  match block with
  | [] => true
  | _ :: _ => false
  end.

Definition columns (block : Block) : nat := length block.

(** Modelled from the spec: [Block::rows] is declared in a header that is
    not part of this development.  All columns of a block have "equal
    length (the block's row count)": the row count is read off the first
    column, and is 0 for a block without columns. *)
Definition rows (block : Block) : nat :=
  match block with
  | [] => 0%nat
  | elem :: _ => size (column elem)
  end.

(** Modelled from the spec: [Block::safeGetByPosition] is declared in a
    header that is not part of this development; the column at a position
    of the "ordered sequence of named columns", with the position
    checked. *)
Definition safeGetByPosition (block : Block) (i : nat)
  : Result ColumnWithTypeAndName :=
  match block !! i with
  | Some elem => Ok elem
  | None => Throw (mkException ("Position " +:+ toString (N.of_nat i) +:+
                                " is out of bound in Block::safeGetByPosition()")
                               POSITION_OUT_OF_BOUND)
  end.

(** Modelled from the spec: [Block::getByName] is declared in a header that
    is not part of this development, and the spec does not describe it.
    It hands out a reference to the column of that name -- the first one
    here -- so it has nothing to return for a name the block lacks: the
    lookup throws. *)
Definition getByName (block : Block) (n : string)
  : Result ColumnWithTypeAndName :=
  match List.find (fun elem => bool_decide (name elem = n)) block with
  | Some elem => Ok elem
  | None => Throw (mkException ("Not found column " +:+ n +:+ " in block")
                               NOT_FOUND_COLUMN_IN_BLOCK)
  end.

(** All columns of the block have the block's row count. *)
Definition wf_block (block : Block) : Prop :=
  Forall (fun elem => size (column elem) = rows block) block.

(** ** The set of keys seen so far *)

Abbreviation ConstColumnPlainPtrs := (list IColumn).

(** The key of a row: the values of the key columns at that row. *)
Abbreviation Key := (list Field).

(** [SetVariants::Type]: which representation of keys the set uses. *)
Inductive SetVariantsType :=
| EMPTY
| key_fixed
| keys_fixed
| hashed
| key_string.

#[global] Instance SetVariantsType_eq_dec : EqDecision SetVariantsType.
Proof. solve_decision. Defined.

(** Modelled from the spec: [SetVariants] is declared in a header that is
    not part of this development.  It is "exactly one of {uninitialized,
    fixed-width single key, fixed-width composite key below a size
    threshold, hashed fixed key, pooled variable-length key}"; a concrete
    variant owns one hash table, which "only grows (inserts), never
    shrinks".  "Two rows with equal key-column values under any variant
    must compare as equal keys (representation affects performance only,
    never identity semantics)": the table is modelled by the keys it
    holds, oldest first, and a key by the values it is made of. *)
Record SetVariants := mkSet { type : SetVariantsType; table : list Key }.

(** A set is created uninitialized. *)
Definition SetVariants_new : SetVariants := mkSet EMPTY [].

(** [SetVariants::empty] *)
Definition empty (d : SetVariants) : bool :=
  bool_decide (type d = EMPTY).

(** [SetVariants::init]: a fresh table of the chosen variant. *)
Definition init (t : SetVariantsType) : SetVariants := mkSet t [].

(** The keys held, oldest first; an uninitialized set holds none. *)
Definition stored (d : SetVariants) : list Key :=
  match type d with
  | EMPTY => []
  | _ => table d
  end.

(** Modelled from the spec: [SetVariants::getTotalRowCount], the "number
    of unique keys stored so far". *)
Definition getTotalRowCount (d : SetVariants) : N :=
  N.of_nat (length (stored d)).

(** Modelled from the spec: [Method::State::getKey], "a pure function of
    the key-column values at that row index": these values. *)
Definition getKey (cols : ConstColumnPlainPtrs) (i : nat) : Key :=
  map (fun c => at_row c i) cols.

(** Modelled from the spec: [Method::Data::emplace] inserts the key unless
    the table holds it already, and tells whether "this insertion created
    a brand-new entry". *)
Definition emplace (key : Key) (table : list Key) : list Key * bool :=
  if decide (key ∈ table) then (table, false) else (table ++ [key], true).

(** ** Configuration *)

(** Modelled from the spec: [OverflowMode] is declared in a header that is
    not part of this development; [Throw], [Break], and [ANY] for "any
    other configured value". *)
Inductive OverflowMode :=
| THROW
| BREAK
| ANY.

#[global] Instance OverflowMode_eq_dec : EqDecision OverflowMode.
Proof. solve_decision. Defined.

Abbreviation Names := (list string).

(** ** The DISTINCT stream *)

(** The members of [DistinctBlockInputStream]; the [size_t] ones are
    natural numbers.  [children] holds the one upstream source, as the
    blocks it has yet to deliver: reading it takes the first of them, and
    an exhausted source delivers [Block()]. *)
Record DistinctBlockInputStream := mkDistinct {
  children : list Block;
  columns_names : Names;
  limit_hint : N;
  max_rows : N;
  max_bytes : N;
  overflow_mode : OverflowMode;
  data : SetVariants
}.

Definition set_data (self : DistinctBlockInputStream) (d : SetVariants)
  : DistinctBlockInputStream :=
  mkDistinct (children self) (columns_names self) (limit_hint self)
             (max_rows self) (max_bytes self) (overflow_mode self) d.

Definition set_children (self : DistinctBlockInputStream) (up : list Block)
  : DistinctBlockInputStream :=
  mkDistinct up (columns_names self) (limit_hint self)
             (max_rows self) (max_bytes self) (overflow_mode self) (data self).

(** The constructor: the settings are stored, the set starts uninitialized. *)
Definition DistinctBlockInputStream_new (input : list Block)
    (limits_max_rows limits_max_bytes : N) (limits_overflow_mode : OverflowMode)
    (limit_hint_ : N) (columns_ : Names) : DistinctBlockInputStream :=
  mkDistinct input columns_ limit_hint_ limits_max_rows limits_max_bytes
             limits_overflow_mode SetVariants_new.

(** [getKeyColumns]: the candidate columns are all columns of the block by
    position when no name is configured, else the named ones in the
    configured order; the constant ones are left out. *)
Definition getKeyColumns (self : DistinctBlockInputStream) (block : Block)
  : Result ConstColumnPlainPtrs :=
  let columns_ :=
    if bool_decide (columns_names self = [])
    then columns block else length (columns_names self) in
  for_loop columns_ (fun i column_ptrs =>
    try! elem :=
      (if bool_decide (columns_names self = [])
       then safeGetByPosition block i
       else getByName block (nth i (columns_names self) ""%string)) in
    (* Ignore all constant columns. *)
    if negb (isConst (column elem))
    then Ok (column_ptrs ++ [column elem])
    else Ok column_ptrs) [].

(** [buildFilter]: rows [0 .. rows-1] in order; each row's key is put into
    the table, and the row's flag tells whether the key was new.
    [Method::onNewKey] only settles where the bytes of a new key live. *)
Definition buildFilter (table : list Key) (cols : ConstColumnPlainPtrs)
    (filt : Filter) (rows_ : nat) : list Key * Filter :=
  fold_left (fun '(table, filt) i =>
    (* Make a key. *)
    let key := getKey cols i in
    let '(table', inserted) := emplace key table in
    (* Emit the record if there is no such key in the current set yet.
       Skip it otherwise. *)
    (table', <[i := inserted]> filt)) (seq 0 rows_) (table, filt).

(** The last loop of [readImpl], over the positions of the block: every
    column is replaced by itself filtered by the mask. *)
Definition filter_block (block : Block) (filt : Filter) : Block :=
  map (fun elem => mkColumn (filter (column elem) filt) (name elem)) block.

(** ** Reading the loops

    The same computations by recursion on the data, for the proofs. *)

(** A loop over the elements of a list instead of their indices. *)
Fixpoint for_each {A X} (l : list X) (step : X -> A -> Result A) (acc : A)
  : Result A :=
  match l with
  | [] => Ok acc
  | x :: l' => bind (step x acc) (for_each l' step)
  end.

Definition plain (c : IColumn) : bool := negb (isConst c).

(** The candidate columns when names are configured: every name is looked
    up, in order. *)
Fixpoint lookup_names (block : Block) (names : Names)
  : Result (list ColumnWithTypeAndName) :=
  match names with
  | [] => Ok []
  | n :: names' =>
      bind (getByName block n) (fun elem =>
      bind (lookup_names block names') (fun elems => Ok (elem :: elems)))
  end.

(** What [getKeyColumns] does with one candidate column. *)
Definition key_step (elem : ColumnWithTypeAndName) (ptrs : ConstColumnPlainPtrs)
  : Result ConstColumnPlainPtrs :=
  if negb (isConst (column elem)) then Ok (ptrs ++ [column elem]) else Ok ptrs.

(** The keys put into the table one after the other, with the flag of
    each. *)
Fixpoint insert_keys (table : list Key) (keys : list Key) : list Key * Filter :=
  match keys with
  | [] => (table, [])
  | key :: keys' =>
      let '(table', inserted) := emplace key table in
      let '(table'', filt) := insert_keys table' keys' in
      (table'', inserted :: filt)
  end.

(** The rows [0 .. n-1] of some columns, each row as the values of the
    columns at it. *)
Definition rows_of (cols : list IColumn) (n : nat) : list (list Field) :=
  map (getKey cols) (seq 0 n).

(** The rows of a block, over all its columns. *)
Definition block_rows (block : Block) : list (list Field) :=
  rows_of (map column block) (rows block).

(** The keys of the rows of a block: its rows over its key columns. *)
Definition key_rows (self : DistinctBlockInputStream) (block : Block)
  : list Key :=
  match getKeyColumns self block with
  | Ok column_ptrs => rows_of column_ptrs (rows block)
  | Throw _ => []
  end.

(** The block has a key column. *)
Definition has_key_columns (self : DistinctBlockInputStream) (block : Block)
  : bool :=
  match getKeyColumns self block with
  | Ok (_ :: _) => true
  | _ => false
  end.

(** The blocks a caller received: the results that are neither an exception
    nor the end-of-data signal. *)
Fixpoint returned (results : list (Result Block)) : list Block :=
  match results with
  | [] => []
  | Ok (elem :: block) :: results' => (elem :: block) :: returned results'
  | _ :: results' => returned results'
  end.

(** ** Notions for the statements *)

(** The values of a column, one per row. *)
Definition values (c : IColumn) : list Field :=
  match c with
  | ColumnVector data => data
  | ColumnConst s v => repeat v s
  end.

(** The members [readImpl] never writes. *)
Definition settings (self : DistinctBlockInputStream)
  : Names * N * N * N * OverflowMode :=
  (columns_names self, limit_hint self, max_rows self, max_bytes self,
   overflow_mode self).

(** The keys of the rows handed out in compacted blocks. *)
Definition emitted_keys (self : DistinctBlockInputStream)
    (results : list (Result Block)) : list Key :=
  concat (map (key_rows self)
              (List.filter (has_key_columns self) (returned results))).

(** The rows of the blocks a caller received, in the order received. *)
Definition returned_rows (results : list (Result Block)) : list (list Field) :=
  concat (map block_rows (returned results)).

(** The candidate key columns of a block, constant or not: all its columns
    when no name is configured, else the named ones in the configured
    order (none when a name is missing).  [getKeyColumns] goes through
    them and keeps those that are not constant. *)
Definition key_candidates (self : DistinctBlockInputStream) (block : Block)
  : list IColumn :=
  if bool_decide (columns_names self = []) then map column block
  else match lookup_names block (columns_names self) with
       | Ok elems => map column elems
       | Throw _ => []
       end.

(** The rows of a block over its candidate key columns: the values of
    every row on every column the configuration makes a key of. *)
Definition key_values (self : DistinctBlockInputStream) (block : Block)
  : list (list Field) :=
  rows_of (key_candidates self block) (rows block).

(** The rows of all the blocks a caller received, over the candidate key
    columns, in the order received. *)
Definition returned_key_values (self : DistinctBlockInputStream)
    (results : list (Result Block)) : list (list Field) :=
  concat (map (key_values self) (returned results)).

(** What is left of a row over the candidate key columns when the columns
    that are constant -- those flagged in [pattern] -- are dropped. *)
Definition plain_part (pattern : list bool) (row : list Field) : list Field :=
  select (map negb pattern) row.

(** The blocks agree on which candidate key columns are constant. *)
Definition same_key_columns (self : DistinctBlockInputStream)
    (pattern : list bool) (blocks : list Block) : Prop :=
  Forall (fun b => map isConst (key_candidates self b) = pattern) blocks.

(** What depends on the variant of the set.  [SetVariants::chooseMethod],
    which picks the variant from the shapes of the key columns, and the
    bytes a stored key retains are declared in headers that are not part of
    this development; they are left open. *)
Class SetMethods := {
  chooseMethod : ConstColumnPlainPtrs -> SetVariantsType;
  key_bytes : Key -> N
}.

Section Distinct.

Context `{methods : SetMethods}.

(** Modelled from the spec: [SetVariants::getTotalByteCount] is declared
    in a header that is not part of this development; the "cumulative
    approximate byte count (sum of retained key byte sizes, including any
    pooled variable-length storage)". *)
Definition getTotalByteCount (d : SetVariants) : N :=
  fold_right (fun key acc => key_bytes key + acc) 0 (stored d).

(** [checkLimits] *)
Definition checkLimits (self : DistinctBlockInputStream) : bool :=
  if negb (max_rows self =? 0) && (max_rows self <? getTotalRowCount (data self))
  then false
  else if negb (max_bytes self =? 0) && (max_bytes self <? getTotalByteCount (data self))
  then false
  else true.

(** What one turn of the [while (1)] loop of [readImpl] ends in, once a
    block has been read: [continue], or a [return]/[throw]. *)
Inductive Turn :=
| Continue (self : DistinctBlockInputStream)
| Return (r : Result Block) (self : DistinctBlockInputStream).

(** The text of the limit exception. *)
Definition limit_message (self : DistinctBlockInputStream) : string :=
  "DISTINCT-Set size limit exceeded."
  +:+ " Rows: " +:+ toString (getTotalRowCount (data self))
  +:+ ", limit: " +:+ toString (max_rows self)
  +:+ ". Bytes: " +:+ toString (getTotalByteCount (data self))
  +:+ ", limit: " +:+ toString (max_bytes self) +:+ ".".

(** The set after [if (data.empty()) data.init(chooseMethod(...))]. *)
Definition init_if_empty (d : SetVariants) (column_ptrs : ConstColumnPlainPtrs)
  : SetVariants :=
  if empty d then init (chooseMethod column_ptrs) else d.

(** The [switch (data.type)]: no pass for [EMPTY], [buildFilter] on the
    table of every other variant.  [filter] is created with [rows] entries
    of unspecified content ([false] here); [buildFilter] writes all of
    them. *)
Definition run_buildFilter (d : SetVariants) (column_ptrs : ConstColumnPlainPtrs)
    (rows_ : nat) : SetVariants * Filter :=
  let filt : Filter := repeat false rows_ in
  match type d with
  | EMPTY => (d, filt)
  | t =>
      let '(table', filt') := buildFilter (table d) column_ptrs filt rows_ in
      (mkSet t table', filt')
  end.

(** The body of the loop of [readImpl] from the test of the block read
    onwards. *)
Definition readImpl_turn (self : DistinctBlockInputStream) (block : Block)
  : Turn :=
  if Block_not block then Return (Ok Block_empty) self else
  match getKeyColumns self block with
  | Throw e => Return (Throw e) self
  | Ok column_ptrs =>
    match column_ptrs with
    | [] => Return (Ok block) self
    | _ :: _ =>
      let data1 := init_if_empty (data self) column_ptrs in
      let old_set_size := getTotalRowCount data1 in
      let rows_ := rows block in
      let '(data2, filt) := run_buildFilter data1 column_ptrs rows_ in
      let self' := set_data self data2 in
      (* Just go to the next block if there isn't any new record in the
         current one. *)
      if getTotalRowCount data2 =? old_set_size then Continue self'
      else if negb (checkLimits self') then
        match overflow_mode self with
        | THROW =>
            Return (Throw (mkException (limit_message self')
                                       SET_SIZE_LIMIT_EXCEEDED)) self'
        | BREAK => Return (Ok Block_empty) self'
        | _ =>
            Return (Throw (mkException "Logical error: unknown overflow mode"
                                       LOGICAL_ERROR)) self'
        end
      else
        Return (Ok (filter_block block filt)) self'
    end
  end.

(** The hint test that opens every turn of the loop. *)
Definition limit_hint_reached (self : DistinctBlockInputStream) : bool :=
  negb (limit_hint self =? 0) && (limit_hint self <=? getTotalRowCount (data self)).

(** The loop of [readImpl], over the blocks the source has yet to
    deliver. *)
Fixpoint readImpl_loop (self : DistinctBlockInputStream) (upstream : list Block)
  : Result Block * DistinctBlockInputStream :=
  (* Stop reading if we already reach the limit. *)
  if limit_hint_reached self then (Ok Block_empty, set_children self upstream)
  else
    match upstream with
    | [] => (Ok Block_empty, set_children self [])
    | block :: rest =>
        match readImpl_turn self block with
        | Continue self' => readImpl_loop self' rest
        | Return r self' => (r, set_children self' rest)
        end
    end.

(** [readImpl]: one pull. *)
Definition readImpl (self : DistinctBlockInputStream)
  : Result Block * DistinctBlockInputStream :=
  readImpl_loop self (children self).

(** [n] pulls in a row, whatever their results; the results come oldest
    first. *)
Fixpoint read_n (n : nat) (self : DistinctBlockInputStream)
  : list (Result Block) * DistinctBlockInputStream :=
  match n with
  | O => ([], self)
  | S n' =>
      let '(r, self') := readImpl self in
      let '(rs, self'') := read_n n' self' in
      (r :: rs, self'')
  end.

(** What the overflow mode makes of a violated limit. *)
Definition on_overflow (self : DistinctBlockInputStream) : Result Block :=
  match overflow_mode self with
  | THROW => Throw (mkException (limit_message self) SET_SIZE_LIMIT_EXCEEDED)
  | BREAK => Ok Block_empty
  | _ => Throw (mkException "Logical error: unknown overflow mode" LOGICAL_ERROR)
  end.

(** The set and the mask after the pass over a block with key columns
    [cols]. *)
Definition pass (self : DistinctBlockInputStream) (block : Block)
    (cols : ConstColumnPlainPtrs) : SetVariants * Filter :=
  run_buildFilter (init_if_empty (data self) cols) cols (rows block).

(** The ways a turn can go. *)
Inductive turn_outcome (self : DistinctBlockInputStream) (block : Block)
  : Turn -> Prop :=
| turn_end :
    block = [] ->
    turn_outcome self block (Return (Ok Block_empty) self)
| turn_error e :
    block <> [] -> getKeyColumns self block = Throw e ->
    turn_outcome self block (Return (Throw e) self)
| turn_passthrough :
    block <> [] -> getKeyColumns self block = Ok [] ->
    turn_outcome self block (Return (Ok block) self)
| turn_skip cols d2 filt :
    block <> [] -> getKeyColumns self block = Ok cols -> cols <> [] ->
    pass self block cols = (d2, filt) ->
    select filt (rows_of cols (rows block)) = [] ->
    turn_outcome self block (Continue (set_data self d2))
| turn_limit cols d2 filt :
    block <> [] -> getKeyColumns self block = Ok cols -> cols <> [] ->
    pass self block cols = (d2, filt) ->
    select filt (rows_of cols (rows block)) <> [] ->
    checkLimits (set_data self d2) = false ->
    turn_outcome self block
      (Return (on_overflow (set_data self d2)) (set_data self d2))
| turn_emit cols d2 filt :
    block <> [] -> getKeyColumns self block = Ok cols -> cols <> [] ->
    pass self block cols = (d2, filt) ->
    select filt (rows_of cols (rows block)) <> [] ->
    checkLimits (set_data self d2) = true ->
    turn_outcome self block
      (Return (Ok (filter_block block filt)) (set_data self d2)).

(** [pulls_block self up at_ block rest]: the pull that starts in [self]
    with the blocks [up] to come reads [block], in state [at_] and with
    [rest] still to come; the blocks before it gave nothing new. *)
Inductive pulls_block
  : DistinctBlockInputStream -> list Block ->
    DistinctBlockInputStream -> Block -> list Block -> Prop :=
| pulls_first self block rest :
    limit_hint_reached self = false ->
    pulls_block self (block :: rest) self block rest
| pulls_later self skipped up self0 at_ block rest :
    limit_hint_reached self = false ->
    readImpl_turn self skipped = Continue self0 ->
    pulls_block self0 up at_ block rest ->
    pulls_block self (skipped :: up) at_ block rest.

(** What a pull does to the set, and which of the new keys it hands out:
    none, or all of them with the limits kept. *)
Definition pull_keys (self : DistinctBlockInputStream) (r : Result Block)
    (self' : DistinctBlockInputStream) : Prop :=
  settings self' = settings self /\
  exists added,
    stored (data self') = stored (data self) ++ added /\
    (NoDup (stored (data self)) -> NoDup (stored (data self'))) /\
    (emitted_keys self [r] = [] \/
     (emitted_keys self [r] = added /\ added <> [] /\ checkLimits self' = true)).

(** Where the block [b] of a pull comes from: the end-of-data signal
    apart, it is a block read in this pull, as it is when it has no key
    column, and else compacted by the mask of its pass, which selects a
    row. *)
Definition block_origin (self : DistinctBlockInputStream) (up : list Block)
    (b : Block) : Prop :=
  b = [] \/
  exists at_ block rest,
    pulls_block self up at_ block rest /\
    ((getKeyColumns self block = Ok [] /\ b = block) \/
     exists cols d2 filt,
       getKeyColumns self block = Ok cols /\ cols <> [] /\
       pass at_ block cols = (d2, filt) /\
       select filt (rows_of cols (rows block)) <> [] /\
       b = filter_block block filt).

End Distinct.

(** * The read buffer over a file *)

(** The platform as the code sees it: whether [__APPLE__] is defined, the
    constants of [<fcntl.h>] and [<errno.h>] it names, and the system
    calls it makes.  [sys_open path flags] is what [open] returns -- the
    descriptor, or -1 -- with [errno] after the call; [sys_fcntl] and
    [sys_close] are what [fcntl] and [::close] return. *)
Class Platform := {
  APPLE : bool;
  O_RDONLY : Z;
  O_DIRECT : Z;
  F_NOCACHE : Z;
  ENOENT : Z;
  sys_open : string -> Z -> Z * Z;
  sys_fcntl : Z -> Z -> Z -> Z;
  sys_close : Z -> Z
}.

(** The members of [ReadBufferFromFile] the code touches: the
    descriptor of the base class and the name of the file. *)
Record ReadBufferFromFile := mkReadBuffer { fd : Z; file_name : string }.

Section ReadBufferFromFile.

Context `{platform : Platform}.

Local Open Scope Z_scope.

(** [bool o_direct = (flags != -1) && (flags & O_DIRECT);], there under
    [__APPLE__] only. *)
Definition o_direct (flags : Z) : bool :=
  APPLE && negb (flags =? -1) && negb (Z.land flags O_DIRECT =? 0).

(** The flags [open] is called with: [O_DIRECT] is taken out under
    [__APPLE__], and -1 stands for [O_RDONLY]. *)
Definition open_flags (flags : Z) : Z :=
  let flags := if o_direct flags then Z.land flags (Z.lnot O_DIRECT) else flags in
  if flags =? -1 then O_RDONLY else flags.

(** [throwFromErrno(s, code)], declared in a header that is not part of
    this development: it throws an exception of that code (the text of
    [errno] it adds to [s] is left out). *)
Definition throwFromErrno {A} (s : string) (code_ : ErrorCode) : Result A :=
  Throw (mkException s code_).

(** The constructor that opens the file by name. *)
Definition ReadBufferFromFile_open (file_name_ : string) (flags : Z)
  : Result ReadBufferFromFile :=
  let '(fd_, errno) := sys_open file_name_ (open_flags flags) in
  if fd_ =? -1 then
    throwFromErrno ("Cannot open file " +:+ file_name_)
      (if errno =? ENOENT then FILE_DOESNT_EXIST else CANNOT_OPEN_FILE)
  else if o_direct flags && (sys_fcntl fd_ F_NOCACHE 1 =? -1) then
    throwFromErrno ("Cannot set F_NOCACHE on file " +:+ file_name_)
      CANNOT_OPEN_FILE
  else Ok (mkReadBuffer fd_ file_name_).

(** The constructor that takes an open descriptor. *)
Definition ReadBufferFromFile_of_fd (fd_ : Z) : ReadBufferFromFile :=
  mkReadBuffer fd_ ("(fd = " +:+ NilZero.string_of_int (Z.to_int fd_) +:+ ")").

(** [close] *)
Definition close (self : ReadBufferFromFile) : Result ReadBufferFromFile :=
  if negb (sys_close (fd self) =? 0) then
    Throw (mkException "Cannot close file" CANNOT_CLOSE_FILE)
  else Ok (mkReadBuffer (-1) (file_name self)).

End ReadBufferFromFile.

(** A call that throws an exception of the given code. *)
Definition throws {A} (r : Result A) (c : ErrorCode) : Prop :=
  exists e, r = Throw e /\ code e = c.


(** * Further notions *)

From Stdlib Require DecimalZ DecimalPos.

(** The keys of [keys] that are neither in [seen] nor earlier in [keys]:
    the first occurrences, in their order. *)
Fixpoint first_occurrences (seen : list Key) (keys : list Key) : list Key :=
  match keys with
  | [] => []
  | key :: keys' =>
      if decide (key ∈ seen) then first_occurrences seen keys'
      else key :: first_occurrences (seen ++ [key]) keys'
  end.

(** A stream is finished when the hint is reached or its source has
    nothing left. *)
Definition finished `{methods : SetMethods} (self : DistinctBlockInputStream)
  : Prop :=
  limit_hint_reached self = true \/ children self = [].

(** The stream a turn leaves. *)
Definition turn_state (t : Turn) : DistinctBlockInputStream :=
  match t with
  | Continue self' => self'
  | Return _ self' => self'
  end.

(** The result is no compacted block: an exception, the end-of-data
    signal, or a block without key column. *)
Definition not_compacted (self : DistinctBlockInputStream) (r : Result Block)
  : Prop :=
  match r with
  | Ok b => has_key_columns self b = false
  | Throw _ => True
  end.

(** [getID]: the identifier of the stream, made of the identifier of its
    source, [children.back()->getID()], here [child_id]. *)
Definition getID (child_id : string) : string :=
  "Distinct(" +:+ child_id +:+ ")".

(** The destructor of [ReadBufferFromFile],
    [if (fd < 0) return; ::close(fd);]: the descriptors it passes to
    [::close], whose result it does not look at. *)
Definition destructor_closes (self : ReadBufferFromFile) : list Z :=
  if (fd self <? 0)%Z then [] else [fd self].

(** * Concrete blocks, streams and a platform to run on *)

(** A choice of variant and a size of keys. *)
Definition example_methods : SetMethods := {|
  chooseMethod := fun cols => match cols with [_] => key_fixed | _ => hashed end;
  key_bytes := fun key => 8 * N.of_nat (length key)
|}.

(** The blocks of the scenario of the specification: rows [(1, x)],
    [(1, y)], [(2, x)], then [(1, x)], [(3, z)]. *)
Definition block1 : Block :=
  [ mkColumn (ColumnVector [FUInt64 1; FUInt64 1; FUInt64 2]) "a";
    mkColumn (ColumnVector [FString "x"; FString "y"; FString "x"]) "b" ].

Definition block2 : Block :=
  [ mkColumn (ColumnVector [FUInt64 1; FUInt64 3]) "a";
    mkColumn (ColumnVector [FString "x"; FString "z"]) "b" ].

(** What is left of [block2] once the rows of [block1] are known. *)
Definition block2_new : Block :=
  [ mkColumn (ColumnVector [FUInt64 3]) "a";
    mkColumn (ColumnVector [FString "z"]) "b" ].

(** The first row of [block1], twice. *)
Definition block_seen : Block :=
  [ mkColumn (ColumnVector [FUInt64 1; FUInt64 1]) "a";
    mkColumn (ColumnVector [FString "x"; FString "x"]) "b" ].

(** Two rows, all columns constant. *)
Definition block_const : Block :=
  [ mkColumn (ColumnConst 2 (FUInt64 7)) "a";
    mkColumn (ColumnConst 2 (FString "x")) "b" ].

(** The blocks of the scenario with a constant column [k] between [a] and
    [b], of another value in each block. *)
Definition block1_k : Block :=
  [ mkColumn (ColumnVector [FUInt64 1; FUInt64 1; FUInt64 2]) "a";
    mkColumn (ColumnConst 3 (FUInt64 7)) "k";
    mkColumn (ColumnVector [FString "x"; FString "y"; FString "x"]) "b" ].

Definition block2_k : Block :=
  [ mkColumn (ColumnVector [FUInt64 1; FUInt64 3]) "a";
    mkColumn (ColumnConst 2 (FUInt64 8)) "k";
    mkColumn (ColumnVector [FString "x"; FString "z"]) "b" ].

(** The row [(1, x)], with column [b] constant, and with column [b]
    materialized. *)
Definition block_b_const : Block :=
  [ mkColumn (ColumnVector [FUInt64 1]) "a";
    mkColumn (ColumnConst 1 (FString "x")) "b" ].

Definition block_b_plain : Block :=
  [ mkColumn (ColumnVector [FUInt64 1]) "a";
    mkColumn (ColumnVector [FString "x"]) "b" ].

(** No limit, mode [THROW], keys [a] and [b]. *)
Definition unlimited (input : list Block) : DistinctBlockInputStream :=
  DistinctBlockInputStream_new input 0 0 THROW 0 ["a"; "b"]%string.

(** No limit, mode [THROW], every column a key. *)
Definition all_columns (input : list Block) : DistinctBlockInputStream :=
  DistinctBlockInputStream_new input 0 0 THROW 0 [].

(** At most 3 rows, every column a key. *)
Definition limited (mode : OverflowMode) (input : list Block)
  : DistinctBlockInputStream :=
  DistinctBlockInputStream_new input 3 0 mode 0 [].

(** The stream [limited mode (block1 :: input)] after its first pull, which
    hands out [block1]. *)
Definition limited_after1 (mode : OverflowMode) (input : list Block)
  : DistinctBlockInputStream :=
  (@readImpl example_methods (limited mode (block1 :: input))).2.

(** The pass over [block2] once [block1] is in the set. *)
Definition pass_block2 (mode : OverflowMode) : SetVariants * Filter :=
  @pass example_methods (limited_after1 mode [block2]) block2 (map column block2).

(** The stream over [block1], [block_seen], [block2] after its first
    pull. *)
Definition seen_after1 : DistinctBlockInputStream :=
  (@readImpl example_methods (unlimited [block1; block_seen; block2])).2.

(** The stream with hint 2 over [block1], [block2] after its first pull:
    3 rows are in the set. *)
Definition hinted_after1 : DistinctBlockInputStream :=
  (@readImpl example_methods
     (DistinctBlockInputStream_new [block1; block2] 3 0 THROW 2 [])).2.

(** Keys [a] and [c]; no block here has a column [c]. *)
Definition misnamed (input : list Block) : DistinctBlockInputStream :=
  DistinctBlockInputStream_new input 0 0 THROW 0 ["a"; "c"]%string.

(** A platform with two files that cannot be opened -- one is missing
    ([ENOENT] is 2), one is denied -- and one descriptor, 3, that can be
    closed. *)
Definition example_platform : Platform := {|
  APPLE := false;
  O_RDONLY := 0;
  O_DIRECT := 16384;
  F_NOCACHE := 48;
  ENOENT := 2;
  sys_open := fun path flags =>
    if bool_decide (path = "missing"%string) then (-1, 2)%Z
    else if bool_decide (path = "denied"%string) then (-1, 13)%Z
    else (3, 0)%Z;
  sys_fcntl := fun fd_ cmd arg => 0%Z;
  sys_close := fun fd_ => if (fd_ =? 3)%Z then 0%Z else (-1)%Z
|}.

(** Rows [(1, x)], [(1, x)], [(2, y)]: the second row repeats the first. *)
Definition block_dup : Block :=
  [ mkColumn (ColumnVector [FUInt64 1; FUInt64 1; FUInt64 2]) "a";
    mkColumn (ColumnVector [FString "x"; FString "x"; FString "y"]) "b" ].

(** A constant column between the two key columns of [block1]. *)
Definition block_mixed : Block :=
  [ mkColumn (ColumnVector [FUInt64 1; FUInt64 1; FUInt64 2]) "a";
    mkColumn (ColumnConst 3 (FUInt64 7)) "k";
    mkColumn (ColumnVector [FString "x"; FString "y"; FString "x"]) "b" ].

(** The stream [limited mode [block1; block2; block_const]] after its
    second pull, which meets the limit. *)
Definition limited_after2 (mode : OverflowMode) : DistinctBlockInputStream :=
  (@readImpl example_methods (limited_after1 mode [block2; block_const])).2.

(** A platform under [__APPLE__], where every file opens on descriptor 4
    and [fcntl] fails on no descriptor. *)
Definition example_apple_platform : Platform := {|
  APPLE := true;
  O_RDONLY := 0;
  O_DIRECT := 16384;
  F_NOCACHE := 48;
  ENOENT := 2;
  sys_open := fun path flags => (4, 0)%Z;
  sys_fcntl := fun fd_ cmd arg => 0%Z;
  sys_close := fun fd_ => 0%Z
|}.

(** * Properties *)

Section DistinctProperties.

Context `{methods : SetMethods}.

(** ** Loops *)

Lemma for_loop_S {A} (n : nat) (body : nat -> A -> Result A) (init : A) :
  for_loop (S n) body init = bind (for_loop n body init) (body n).
Proof.
  unfold for_loop. rewrite seq_S, fold_left_app. reflexivity.
Qed.

Lemma for_each_snoc {A X} (l : list X) (x : X) (step : X -> A -> Result A) acc :
  for_each (l ++ [x]) step acc = bind (for_each l step acc) (step x).
Proof.
  revert acc. induction l as [|y l IH]; intros acc; simpl.
  - destruct (step x acc); reflexivity.
  - destruct (step y acc); simpl; [apply IH | reflexivity].
Qed.

Lemma for_loop_for_each {A X} (l : list X) (step : X -> A -> Result A)
    (body : nat -> A -> Result A) (init : A) :
  (forall i x a, l !! i = Some x -> body i a = step x a) ->
  for_loop (length l) body init = for_each l step init.
Proof.
  induction l as [|x l IH] using rev_ind; intros Hbody.
  - reflexivity.
  - rewrite length_app, Nat.add_1_r, for_loop_S, for_each_snoc.
    rewrite IH.
    + destruct (for_each l step init) as [a|e]; [|reflexivity].
      apply Hbody. rewrite lookup_app_r by lia.
      rewrite Nat.sub_diag. reflexivity.
    + intros i y a Hi. apply Hbody. rewrite lookup_app_l; [assumption|].
      eapply lookup_lt_Some; eassumption.
Qed.

(** ** Key columns *)

Lemma filter_plain_cons (c : IColumn) (l : list IColumn) :
  List.filter plain (c :: l)
  = if isConst c then List.filter plain l else c :: List.filter plain l.
Proof. unfold plain. simpl. destruct (isConst c); reflexivity. Qed.

Lemma for_each_key_step (l : list ColumnWithTypeAndName) ptrs :
  for_each l key_step ptrs = Ok (ptrs ++ List.filter plain (map column l)).
Proof.
  revert ptrs. induction l as [|x l IH]; intros ptrs.
  - simpl. rewrite app_nil_r. reflexivity.
  - cbn [for_each map]. rewrite filter_plain_cons. unfold key_step at 1.
    destruct (isConst (column x)); cbn [negb bind].
    + apply IH.
    + rewrite IH, <- app_assoc. reflexivity.
Qed.

Lemma for_each_named (block : Block) (names : Names) ptrs :
  for_each names (fun n a => bind (getByName block n) (fun elem => key_step elem a)) ptrs
  = bind (lookup_names block names)
         (fun elems => Ok (ptrs ++ List.filter plain (map column elems))).
Proof.
  revert ptrs. induction names as [|n names IH]; intros ptrs.
  - simpl. rewrite app_nil_r. reflexivity.
  - cbn [for_each lookup_names].
    destruct (getByName block n) as [elem|e]; cbn [bind]; [|reflexivity].
    unfold key_step at 1.
    destruct (isConst (column elem)) eqn:Hc; cbn [negb bind]; rewrite IH;
      destruct (lookup_names block names) as [elems|e]; cbn [bind map];
      try reflexivity; rewrite filter_plain_cons, Hc; [reflexivity|].
    rewrite <- app_assoc. reflexivity.
Qed.

Lemma getKeyColumns_positional self block :
  columns_names self = [] ->
  getKeyColumns self block = Ok (List.filter plain (map column block)).
Proof.
  intros Hnames. unfold getKeyColumns. rewrite Hnames.
  rewrite bool_decide_eq_true_2 by reflexivity. unfold columns.
  rewrite (for_loop_for_each block key_step).
  - apply for_each_key_step.
  - intros i x a Hi. unfold safeGetByPosition. rewrite Hi. reflexivity.
Qed.

Lemma getKeyColumns_named self block :
  columns_names self <> [] ->
  getKeyColumns self block
  = bind (lookup_names block (columns_names self))
         (fun elems => Ok (List.filter plain (map column elems))).
Proof.
  intros Hnames. unfold getKeyColumns.
  rewrite bool_decide_eq_false_2 by assumption.
  rewrite (for_loop_for_each (columns_names self)
             (fun n a => bind (getByName block n) (fun elem => key_step elem a))).
  - apply for_each_named.
  - intros i x a Hi. erewrite nth_lookup_Some by eassumption. reflexivity.
Qed.

(** ** Masks *)

Lemma select_nil_r {A} (filt : Filter) : select filt (@nil A) = [].
Proof. destruct filt; reflexivity. Qed.

Lemma select_sublist {A} (filt : Filter) (l : list A) :
  select filt l `sublist_of` l.
Proof.
  revert l. induction filt as [|b filt IH]; intros [|x l]; simpl;
    try apply sublist_nil_l.
  destruct b; [apply sublist_skip | apply sublist_cons]; apply IH.
Qed.

Lemma countBytesInFilter_cons (b : bool) (filt : Filter) :
  countBytesInFilter (b :: filt)
  = if b then S (countBytesInFilter filt) else countBytesInFilter filt.
Proof. unfold countBytesInFilter. simpl. destruct b; reflexivity. Qed.

Lemma length_select {A} (filt : Filter) (l : list A) :
  length filt = length l ->
  length (select filt l) = countBytesInFilter filt.
Proof.
  revert l. induction filt as [|b filt IH]; intros [|x l] Hlen;
    simpl in Hlen; try discriminate; [reflexivity|].
  rewrite countBytesInFilter_cons. simpl.
  destruct b; simpl; rewrite IH by lia; reflexivity.
Qed.

Lemma select_repeat_false {A} (n : nat) (l : list A) :
  select (repeat false n) l = [].
Proof.
  revert l. induction n as [|n IH]; intros [|x l]; simpl; auto.
Qed.

Lemma select_repeat {A} (filt : Filter) (v : A) :
  select filt (repeat v (length filt)) = repeat v (countBytesInFilter filt).
Proof.
  induction filt as [|b filt IH]; [reflexivity|].
  rewrite countBytesInFilter_cons. simpl.
  destruct b; simpl; rewrite IH; reflexivity.
Qed.

(** ** Putting keys into the table *)

Lemma insert_keys_spec (keys table table' : list Key) (filt : Filter) :
  insert_keys table keys = (table', filt) ->
  length filt = length keys /\
  table' = table ++ select filt keys /\
  (NoDup table -> NoDup table').
Proof.
  revert table table' filt.
  induction keys as [|key keys IH]; intros table table' filt Hins; simpl in Hins.
  - inversion Hins; subst. rewrite app_nil_r. auto.
  - unfold emplace in Hins.
    destruct (decide (key ∈ table)) as [Hin|Hnin];
      destruct (insert_keys _ keys) as [t f] eqn:Hrec; inversion Hins; subst;
      destruct (IH _ _ _ Hrec) as (Hlen & Htab & Hnd); simpl.
    + auto.
    + split; [lia|]. split; [rewrite Htab, <- app_assoc; reflexivity|].
      intros Hn. apply Hnd. apply NoDup_app. repeat split.
      * assumption.
      * intros x Hx Hx'. apply list_elem_of_singleton in Hx'. subst. auto.
      * apply NoDup_singleton.
Qed.

Lemma insert_keys_seen (keys table : list Key) :
  (forall key, key ∈ keys -> key ∈ table) ->
  insert_keys table keys = (table, repeat false (length keys)).
Proof.
  induction keys as [|key keys IH]; intros Hseen; simpl; [reflexivity|].
  unfold emplace. rewrite decide_True by (apply Hseen; left).
  rewrite IH; [reflexivity|].
  intros k Hk. apply Hseen. right. assumption.
Qed.

(** A key selected by the pass was not in the table before it.  *)
Lemma insert_keys_new (keys table table' : list Key) (filt : Filter) key :
  insert_keys table keys = (table', filt) ->
  key ∈ select filt keys -> key ∉ table.
Proof.
  revert table table' filt.
  induction keys as [|k keys IH]; intros table table' filt Hins Hin; simpl in Hins.
  - inversion Hins; subst. simpl in Hin. inversion Hin.
  - unfold emplace in Hins.
    destruct (decide (k ∈ table)) as [Hk|Hk];
      destruct (insert_keys _ keys) as [t f] eqn:Hrec; inversion Hins; subst;
      simpl in Hin.
    + eapply IH; eassumption.
    + apply elem_of_cons in Hin as [->|Hin]; [assumption|].
      intros Habs. eapply IH; [eassumption | eassumption |].
      apply elem_of_app. left. assumption.
Qed.

Lemma buildFilter_from (cols : ConstColumnPlainPtrs) (n k : nat)
    (table : list Key) (pre rest : Filter) :
  length pre = k -> length rest = n ->
  fold_left (fun '(table, filt) i =>
    let key := getKey cols i in
    let '(table', inserted) := emplace key table in
    (table', <[i := inserted]> filt)) (seq k n) (table, pre ++ rest)
  = (let '(table', filt) := insert_keys table (map (getKey cols) (seq k n)) in
     (table', pre ++ filt)).
Proof.
  revert k table pre rest.
  induction n as [|n IH]; intros k table pre rest Hpre Hrest.
  - destruct rest; [|discriminate]. reflexivity.
  - destruct rest as [|r rest]; [discriminate|].
    cbn [seq fold_left map insert_keys].
    destruct (emplace (getKey cols k) table) as [table1 inserted].
    assert (Hins : <[k := inserted]> (pre ++ r :: rest)
                   = (pre ++ [inserted]) ++ rest).
    { rewrite insert_app_r_alt by lia. rewrite Hpre, Nat.sub_diag.
      simpl. rewrite <- app_assoc. reflexivity. }
    rewrite Hins. rewrite IH.
    + destruct (insert_keys table1 _) as [t f].
      rewrite <- app_assoc. reflexivity.
    + rewrite length_app. simpl. lia.
    + simpl in Hrest. lia.
Qed.

Lemma buildFilter_insert_keys (table : list Key) (cols : ConstColumnPlainPtrs)
    (filt : Filter) (n : nat) :
  length filt = n ->
  buildFilter table cols filt n = insert_keys table (rows_of cols n).
Proof.
  intros Hlen. unfold buildFilter, rows_of.
  pose proof (buildFilter_from cols n 0 table [] filt eq_refl Hlen) as Hfrom.
  cbn [app] in Hfrom. rewrite Hfrom.
  destruct (insert_keys table _); reflexivity.
Qed.

(** ** Rows of columns *)

Lemma map_nth_seq_from {A} (d : A) (l : list A) (k : nat) :
  map (fun i => nth (i - k) l d) (seq k (length l)) = l.
Proof.
  revert k. induction l as [|x l IH]; intros k; simpl; [reflexivity|].
  rewrite Nat.sub_diag. f_equal.
  etransitivity; [|apply (IH (S k))]. apply map_ext_in.
  intros i Hi. apply in_seq in Hi.
  replace (i - k)%nat with (S (i - S k)) by lia. reflexivity.
Qed.

Lemma map_const_seq {A} (v : A) (k n : nat) :
  map (fun _ => v) (seq k n) = repeat v n.
Proof.
  revert k. induction n as [|n IH]; intros k; simpl; [reflexivity|].
  rewrite IH. reflexivity.
Qed.

Lemma map_at_row_seq (c : IColumn) :
  map (at_row c) (seq 0 (size c)) = values c.
Proof.
  destruct c as [data|s v]; simpl.
  - etransitivity; [|apply (map_nth_seq_from FNull data 0)].
    apply map_ext. intros i. rewrite Nat.sub_0_r. reflexivity.
  - apply map_const_seq.
Qed.

Lemma size_filter (c : IColumn) (filt : Filter) :
  size c = length filt -> size (filter c filt) = countBytesInFilter filt.
Proof.
  destruct c as [data|s v]; simpl; intros Hlen; [|reflexivity].
  apply length_select. lia.
Qed.

Lemma values_filter (c : IColumn) (filt : Filter) :
  size c = length filt -> values (filter c filt) = select filt (values c).
Proof.
  destruct c as [data|s v]; simpl; intros Hlen; [reflexivity|].
  subst s. symmetry. apply select_repeat.
Qed.

Lemma isConst_filter (c : IColumn) (filt : Filter) :
  isConst (filter c filt) = isConst c.
Proof. destruct c; reflexivity. Qed.

Lemma rows_of_nil (n : nat) : rows_of [] n = repeat [] n.
Proof. unfold rows_of, getKey. simpl. apply map_const_seq. Qed.

Lemma rows_of_cons (c : IColumn) (cols : list IColumn) (n : nat) :
  rows_of (c :: cols) n = zip_with cons (map (at_row c) (seq 0 n)) (rows_of cols n).
Proof.
  unfold rows_of, getKey. generalize (seq 0 n). intros l.
  induction l as [|i l IH]; [reflexivity|].
  cbn [map zip_with] in *. rewrite IH. reflexivity.
Qed.

Lemma length_rows_of (cols : list IColumn) (n : nat) :
  length (rows_of cols n) = n.
Proof. unfold rows_of. rewrite length_map, length_seq. reflexivity. Qed.

Lemma select_zip_with {A B C} (h : A -> B -> C) (filt : Filter)
    (a : list A) (b : list B) :
  select filt (zip_with h a b) = zip_with h (select filt a) (select filt b).
Proof.
  revert a b. induction filt as [|f filt IH]; intros [|x a] [|y b]; simpl;
    try reflexivity.
  - destruct f; [|destruct (select filt a); reflexivity]. reflexivity.
  - destruct f; simpl; rewrite IH; reflexivity.
Qed.

(** Row [j] of the filtered columns is the [j]-th selected row of the
    columns. *)
Lemma rows_of_filter (cols : list IColumn) (filt : Filter) :
  Forall (fun c => size c = length filt) cols ->
  rows_of (map (fun c => filter c filt) cols) (countBytesInFilter filt)
  = select filt (rows_of cols (length filt)).
Proof.
  induction 1 as [|c cols Hc Hcols IH]; cbn [map].
  - rewrite !rows_of_nil.
    rewrite <- (select_repeat filt []). reflexivity.
  - rewrite !rows_of_cons, IH, select_zip_with. f_equal.
    rewrite <- (size_filter c filt Hc), map_at_row_seq.
    rewrite <- Hc, map_at_row_seq. apply values_filter. assumption.
Qed.

(** ** Blocks and their key columns under a mask *)

Lemma rows_filter_block (block : Block) (filt : Filter) :
  block <> [] -> wf_block block -> length filt = rows block ->
  rows (filter_block block filt) = countBytesInFilter filt.
Proof.
  destruct block as [|elem block]; [congruence|]. intros _ _ Hlen.
  simpl in *. apply size_filter. lia.
Qed.

Lemma getByName_filter_block (block : Block) (filt : Filter) (n : string) :
  getByName (filter_block block filt) n
  = bind (getByName block n)
         (fun elem => Ok (mkColumn (filter (column elem) filt) (name elem))).
Proof.
  unfold getByName, filter_block.
  induction block as [|elem block IH]; simpl; [reflexivity|].
  destruct (bool_decide (name elem = n)); [reflexivity|]. apply IH.
Qed.

Lemma lookup_names_filter_block (block : Block) (filt : Filter) (names : Names) :
  lookup_names (filter_block block filt) names
  = bind (lookup_names block names) (fun elems => Ok (filter_block elems filt)).
Proof.
  induction names as [|n names IH]; simpl; [reflexivity|].
  rewrite getByName_filter_block, IH.
  destruct (getByName block n); simpl; [|reflexivity].
  destruct (lookup_names block names); reflexivity.
Qed.

Lemma filter_plain_filter_block (block : Block) (filt : Filter) :
  List.filter plain (map column (filter_block block filt))
  = map (fun c => filter c filt) (List.filter plain (map column block)).
Proof.
  induction block as [|elem block IH]; [reflexivity|].
  unfold filter_block in *. cbn [map]. rewrite !filter_plain_cons. cbn [column].
  rewrite isConst_filter.
  destruct (isConst (column elem)); cbn [map]; rewrite IH; reflexivity.
Qed.

Lemma getKeyColumns_filter_block self (block : Block) (filt : Filter) :
  getKeyColumns self (filter_block block filt)
  = bind (getKeyColumns self block)
         (fun cols => Ok (map (fun c => filter c filt) cols)).
Proof.
  destruct (decide (columns_names self = [])) as [Hn|Hn].
  - rewrite !getKeyColumns_positional by assumption.
    simpl. rewrite filter_plain_filter_block. reflexivity.
  - rewrite !getKeyColumns_named by assumption.
    rewrite lookup_names_filter_block.
    destruct (lookup_names block (columns_names self)); simpl; [|reflexivity].
    rewrite filter_plain_filter_block. reflexivity.
Qed.

Lemma getByName_elem_of (block : Block) (n : string) elem :
  getByName block n = Ok elem -> elem ∈ block.
Proof.
  unfold getByName.
  destruct (List.find _ block) as [e|] eqn:Hfind; [|discriminate].
  intros [= <-]. apply find_some in Hfind as [Hin _].
  apply list_elem_of_In. assumption.
Qed.

Lemma lookup_names_elem_of (block : Block) (names : Names) elems :
  lookup_names block names = Ok elems -> Forall (fun elem => elem ∈ block) elems.
Proof.
  revert elems. induction names as [|n names IH]; simpl; intros elems Hl.
  - inversion Hl. constructor.
  - destruct (getByName block n) as [elem|] eqn:Hget; simpl in Hl; [|discriminate].
    destruct (lookup_names block names) as [es|]; simpl in Hl; [|discriminate].
    inversion Hl; subst. constructor; [|apply IH; reflexivity].
    eapply getByName_elem_of; eassumption.
Qed.

(** The key columns are columns of the block. *)
Lemma getKeyColumns_elem_of self (block : Block) cols :
  getKeyColumns self block = Ok cols ->
  Forall (fun c => c ∈ map column block) cols.
Proof.
  destruct (decide (columns_names self = [])) as [Hn|Hn].
  - rewrite getKeyColumns_positional by assumption. intros [= <-].
    apply Forall_forall. intros c Hc.
    apply list_elem_of_In, filter_In in Hc as [Hc _].
    apply list_elem_of_In. assumption.
  - rewrite getKeyColumns_named by assumption.
    destruct (lookup_names block (columns_names self)) as [elems|] eqn:Hl;
      simpl; [|discriminate].
    intros [= <-]. apply lookup_names_elem_of in Hl.
    apply Forall_forall. intros c Hc.
    apply list_elem_of_In, filter_In in Hc as [Hc _].
    apply list_elem_of_In, list_elem_of_fmap in Hc as (elem & -> & Helem).
    apply list_elem_of_fmap. exists elem. split; [reflexivity|].
    eapply Forall_forall in Hl; eassumption.
Qed.

Lemma getKeyColumns_size self (block : Block) cols :
  wf_block block -> getKeyColumns self block = Ok cols ->
  Forall (fun c => size c = rows block) cols.
Proof.
  intros Hwf Hget. apply getKeyColumns_elem_of in Hget.
  eapply Forall_impl; [eassumption|]. cbn beta.
  intros c Hc. apply list_elem_of_fmap in Hc as (elem & -> & Helem).
  unfold wf_block in Hwf. eapply Forall_forall in Hwf; eassumption.
Qed.

(** The keys of the rows of a compacted block are the keys of the rows
    the mask selects. *)
Lemma key_rows_filter_block self (block : Block) (filt : Filter) :
  block <> [] -> wf_block block -> length filt = rows block ->
  key_rows self (filter_block block filt) = select filt (key_rows self block).
Proof.
  intros Hne Hwf Hlen. unfold key_rows.
  rewrite getKeyColumns_filter_block, rows_filter_block by assumption.
  destruct (getKeyColumns self block) as [cols|e] eqn:Hget; simpl.
  - rewrite <- Hlen. apply rows_of_filter. rewrite Hlen.
    eapply getKeyColumns_size; eassumption.
  - rewrite select_nil_r. reflexivity.
Qed.

(** The rows of a compacted block are the rows the mask selects. *)
Lemma block_rows_filter_block (block : Block) (filt : Filter) :
  wf_block block -> length filt = rows block ->
  block_rows (filter_block block filt) = select filt (block_rows block).
Proof.
  intros Hwf Hlen. destruct (decide (block = [])) as [->|Hne].
  - simpl in Hlen. destruct filt; [reflexivity | discriminate].
  - unfold block_rows. rewrite rows_filter_block by assumption.
    replace (map column (filter_block block filt))
      with (map (fun c => filter c filt) (map column block)).
    + rewrite <- Hlen. apply rows_of_filter. rewrite Hlen.
      unfold wf_block in Hwf. apply Forall_fmap.
      eapply Forall_impl; [eassumption|]. auto.
    + unfold filter_block. rewrite !map_map. reflexivity.
Qed.

(** ** The settings stay *)

Lemma settings_inv self self' :
  settings self' = settings self ->
  columns_names self' = columns_names self /\
  limit_hint self' = limit_hint self /\
  max_rows self' = max_rows self /\
  max_bytes self' = max_bytes self /\
  overflow_mode self' = overflow_mode self.
Proof. unfold settings. intros [= -> -> -> -> ->]. auto. Qed.

Lemma getKeyColumns_settings self self' block :
  settings self' = settings self ->
  getKeyColumns self' block = getKeyColumns self block.
Proof.
  intros Hs. apply settings_inv in Hs as (Hn & _).
  unfold getKeyColumns. rewrite Hn. reflexivity.
Qed.

Lemma key_rows_settings self self' block :
  settings self' = settings self -> key_rows self' block = key_rows self block.
Proof.
  intros Hs. unfold key_rows. rewrite (getKeyColumns_settings _ _ _ Hs).
  reflexivity.
Qed.

Lemma has_key_columns_settings self self' block :
  settings self' = settings self ->
  has_key_columns self' block = has_key_columns self block.
Proof.
  intros Hs. unfold has_key_columns. rewrite (getKeyColumns_settings _ _ _ Hs).
  reflexivity.
Qed.

(** ** The set under one pass *)

Lemma stored_init_if_empty (d : SetVariants) (cols : ConstColumnPlainPtrs) :
  stored (init_if_empty d cols) = stored d.
Proof.
  unfold init_if_empty, empty. case_bool_decide as Ht; [|reflexivity].
  unfold stored at 2. rewrite Ht.
  unfold stored, init. simpl. destruct (chooseMethod cols); reflexivity.
Qed.

Lemma getTotalRowCount_eq (d d' : SetVariants) :
  getTotalRowCount d' = getTotalRowCount d <-> length (stored d') = length (stored d).
Proof. unfold getTotalRowCount. lia. Qed.

Lemma run_buildFilter_spec (d d2 : SetVariants) (cols : ConstColumnPlainPtrs)
    (n : nat) (filt : Filter) :
  run_buildFilter d cols n = (d2, filt) ->
  length filt = n /\
  stored d2 = stored d ++ select filt (rows_of cols n) /\
  (NoDup (stored d) -> NoDup (stored d2)) /\
  (forall key, key ∈ select filt (rows_of cols n) -> key ∉ stored d).
Proof.
  unfold run_buildFilter. intros Hrun.
  destruct (type d) eqn:Ht.
  1: { inversion Hrun; subst. rewrite select_repeat_false, app_nil_r.
       rewrite repeat_length. repeat split; auto. intros key Hk. inversion Hk. }
  all: rewrite buildFilter_insert_keys in Hrun by apply repeat_length;
    destruct (insert_keys (table d) (rows_of cols n)) as [t f] eqn:Hins;
    inversion Hrun; subst;
    destruct (insert_keys_spec _ _ _ _ Hins) as (Hlen & Htab & Hnd);
    rewrite length_rows_of in Hlen;
    unfold stored; rewrite Ht; simpl;
    (split; [assumption|]); (split; [assumption|]); (split; [assumption|]);
    intros key Hk; eapply insert_keys_new; eassumption.
Qed.

(** A pass over keys the set holds already leaves the set as it is. *)
Lemma run_buildFilter_seen (d : SetVariants) (cols : ConstColumnPlainPtrs)
    (n : nat) :
  (forall key, key ∈ rows_of cols n -> key ∈ stored d) ->
  run_buildFilter d cols n = (d, repeat false n).
Proof.
  intros Hseen. unfold run_buildFilter.
  destruct (type d) eqn:Ht; [reflexivity| ..].
  all: rewrite buildFilter_insert_keys by apply repeat_length;
    rewrite insert_keys_seen, length_rows_of;
    [destruct d; simpl in *; subst; reflexivity|];
    intros key Hk; specialize (Hseen key Hk); unfold stored in Hseen;
    rewrite Ht in Hseen; assumption.
Qed.

(** ** One turn of the loop *)

Lemma pass_spec self block cols d2 filt :
  pass self block cols = (d2, filt) ->
  length filt = rows block /\
  stored d2 = stored (data self) ++ select filt (rows_of cols (rows block)) /\
  (NoDup (stored (data self)) -> NoDup (stored d2)) /\
  (forall key, key ∈ select filt (rows_of cols (rows block)) ->
               key ∉ stored (data self)).
Proof.
  unfold pass. intros Hpass. apply run_buildFilter_spec in Hpass.
  rewrite stored_init_if_empty in Hpass. assumption.
Qed.

Lemma readImpl_turn_outcome self block :
  turn_outcome self block (readImpl_turn self block).
Proof.
  unfold readImpl_turn.
  destruct block as [|elem block]; [apply turn_end; reflexivity|].
  cbn [Block_not].
  destruct (getKeyColumns self (elem :: block)) as [[|c cols]|e] eqn:Hget.
  - apply turn_passthrough; [discriminate | assumption].
  - fold (pass self (elem :: block) (c :: cols)).
    destruct (pass self (elem :: block) (c :: cols)) as [d2 filt] eqn:Hpass.
    destruct (pass_spec _ _ _ _ _ Hpass) as (Hlen & Hst & _).
    assert (Hcount : getTotalRowCount d2
                     = getTotalRowCount (init_if_empty (data self) (c :: cols))
                     <-> select filt (rows_of (c :: cols) (rows (elem :: block))) = []).
    { rewrite getTotalRowCount_eq, stored_init_if_empty, Hst, length_app.
      split; [intros Hl; apply length_zero_iff_nil; lia | intros ->; simpl; lia]. }
    destruct (N.eqb_spec (getTotalRowCount d2)
                (getTotalRowCount (init_if_empty (data self) (c :: cols))))
      as [Heq|Hne].
    + apply (turn_skip _ _ (c :: cols) d2 filt);
        [discriminate | assumption | discriminate | assumption | tauto].
    + destruct (checkLimits (set_data self d2)) eqn:Hlim; cbn [negb].
      * apply (turn_emit _ _ (c :: cols) d2 filt);
          [discriminate | assumption | discriminate | assumption | tauto
          | assumption].
      * assert (Hout : turn_outcome self (elem :: block)
                          (Return (on_overflow (set_data self d2))
                                  (set_data self d2))).
        { apply (turn_limit _ _ (c :: cols) d2 filt);
            [discriminate | assumption | discriminate | assumption | tauto
            | assumption]. }
        unfold on_overflow in Hout.
        change (overflow_mode (set_data self d2)) with (overflow_mode self) in Hout.
        destruct (overflow_mode self); exact Hout.
  - apply turn_error; [discriminate | assumption].
Qed.

(** ** The loop *)

Lemma readImpl_loop_hint self up :
  limit_hint_reached self = true ->
  readImpl_loop self up = (Ok Block_empty, set_children self up).
Proof. intros H. destruct up; simpl; rewrite H; reflexivity. Qed.

Lemma readImpl_loop_nil self :
  readImpl_loop self [] = (Ok Block_empty, set_children self []).
Proof. simpl. destruct (limit_hint_reached self); reflexivity. Qed.

Lemma readImpl_loop_return self block rest r self' :
  limit_hint_reached self = false ->
  readImpl_turn self block = Return r self' ->
  readImpl_loop self (block :: rest) = (r, set_children self' rest).
Proof. intros Hh Ht. simpl. rewrite Hh, Ht. reflexivity. Qed.

Lemma readImpl_loop_continue self block rest self' :
  limit_hint_reached self = false ->
  readImpl_turn self block = Continue self' ->
  readImpl_loop self (block :: rest) = readImpl_loop self' rest.
Proof. intros Hh Ht. simpl. rewrite Hh, Ht. reflexivity. Qed.

(** Induction along the turns of one pull. *)
Lemma readImpl_loop_turns
    (P : DistinctBlockInputStream -> list Block ->
         Result Block * DistinctBlockInputStream -> Prop) :
  (forall self up,
      limit_hint_reached self = true ->
      P self up (Ok Block_empty, set_children self up)) ->
  (forall self,
      limit_hint_reached self = false ->
      P self [] (Ok Block_empty, set_children self [])) ->
  (forall self block rest r self',
      limit_hint_reached self = false ->
      readImpl_turn self block = Return r self' ->
      P self (block :: rest) (r, set_children self' rest)) ->
  (forall self block rest self',
      limit_hint_reached self = false ->
      readImpl_turn self block = Continue self' ->
      P self' rest (readImpl_loop self' rest) ->
      P self (block :: rest) (readImpl_loop self' rest)) ->
  forall self up, P self up (readImpl_loop self up).
Proof.
  intros Hhint Hnil Hret Hcont self up. revert self.
  induction up as [|block rest IH]; intros self.
  - destruct (limit_hint_reached self) eqn:Hh.
    + rewrite readImpl_loop_hint by assumption. auto.
    + rewrite readImpl_loop_nil. auto.
  - destruct (limit_hint_reached self) eqn:Hh.
    + rewrite readImpl_loop_hint by assumption. auto.
    + destruct (readImpl_turn self block) as [self'|r self'] eqn:Ht.
      * rewrite (readImpl_loop_continue _ _ _ _ Hh Ht). eauto.
      * rewrite (readImpl_loop_return _ _ _ _ _ Hh Ht). eauto.
Qed.

(** ** The blocks a pull reads *)

Lemma turn_continue_stored self block self' :
  readImpl_turn self block = Continue self' ->
  settings self' = settings self /\ stored (data self') = stored (data self).
Proof.
  intros Ht. pose proof (readImpl_turn_outcome self block) as Hout.
  rewrite Ht in Hout. inversion Hout as [| | |cols d2 filt Hne Hget Hcols Hpass Hsel| |]; subst.
  split; [reflexivity|].
  destruct (pass_spec _ _ _ _ _ Hpass) as (_ & Hst & _).
  simpl. rewrite Hst, Hsel, app_nil_r. reflexivity.
Qed.

Lemma pulls_block_stored self up at_ block rest :
  pulls_block self up at_ block rest ->
  settings at_ = settings self /\ stored (data at_) = stored (data self).
Proof.
  induction 1 as [|self skipped up self0 at_ block rest Hh Ht Hp [IHs IHd]];
    [auto|].
  apply turn_continue_stored in Ht as [Hs Hd].
  split; congruence.
Qed.

Lemma pulls_block_return self up at_ block rest r self' :
  pulls_block self up at_ block rest ->
  readImpl_turn at_ block = Return r self' ->
  readImpl_loop self up = (r, set_children self' rest).
Proof.
  induction 1 as [|self skipped up self0 at_ block rest Hh Ht Hp IH]; intros Hr.
  - apply readImpl_loop_return; assumption.
  - rewrite (readImpl_loop_continue _ _ _ _ Hh Ht). apply IH. assumption.
Qed.

Lemma pulls_block_continue self up at_ block rest self' :
  pulls_block self up at_ block rest ->
  readImpl_turn at_ block = Continue self' ->
  readImpl_loop self up = readImpl_loop self' rest.
Proof.
  induction 1 as [|self skipped up self0 at_ block rest Hh Ht Hp IH]; intros Hr.
  - apply readImpl_loop_continue; assumption.
  - rewrite (readImpl_loop_continue _ _ _ _ Hh Ht). apply IH. assumption.
Qed.

(** ** Counts and limits *)

Lemma getTotalByteCount_app (d d' : SetVariants) (added : list Key) :
  stored d' = stored d ++ added ->
  getTotalByteCount d <= getTotalByteCount d'.
Proof.
  unfold getTotalByteCount. intros ->.
  induction (stored d) as [|key l IH]; simpl; lia.
Qed.

Lemma getTotalRowCount_app (d d' : SetVariants) (added : list Key) :
  stored d' = stored d ++ added ->
  getTotalRowCount d' = getTotalRowCount d + N.of_nat (length added).
Proof. unfold getTotalRowCount. intros ->. rewrite length_app. lia. Qed.

Lemma checkLimits_true self :
  checkLimits self = true <->
  (max_rows self = 0 \/ getTotalRowCount (data self) <= max_rows self) /\
  (max_bytes self = 0 \/ getTotalByteCount (data self) <= max_bytes self).
Proof.
  unfold checkLimits.
  destruct (N.eqb_spec (max_rows self) 0) as [Hr|Hr];
    destruct (N.eqb_spec (max_bytes self) 0) as [Hb|Hb];
    destruct (N.ltb_spec (max_rows self) (getTotalRowCount (data self)));
    destruct (N.ltb_spec (max_bytes self) (getTotalByteCount (data self)));
    simpl; split; try discriminate; try tauto; intros [[|] [|]];
    try reflexivity; lia.
Qed.

(** The counts depend on the keys held only. *)
Lemma checkLimits_stored self self' :
  settings self' = settings self -> stored (data self') = stored (data self) ->
  checkLimits self' = checkLimits self.
Proof.
  intros Hs Hd. apply settings_inv in Hs as (_ & _ & Hr & Hb & _).
  unfold checkLimits, getTotalByteCount, getTotalRowCount.
  rewrite Hr, Hb, Hd. reflexivity.
Qed.

(** A violated limit stays violated as the set grows. *)
Lemma checkLimits_grow self self' (added : list Key) :
  settings self' = settings self ->
  stored (data self') = stored (data self) ++ added ->
  checkLimits self = false -> checkLimits self' = false.
Proof.
  intros Hs Hd Hlim.
  destruct (checkLimits self') eqn:Hlim'; [|reflexivity].
  apply checkLimits_true in Hlim'.
  apply settings_inv in Hs as (_ & _ & Hr & Hb & _). rewrite Hr, Hb in Hlim'.
  pose proof (getTotalByteCount_app _ _ _ Hd) as Hbytes.
  pose proof (getTotalRowCount_app _ _ _ Hd) as Hrows.
  assert (checkLimits self = true); [|congruence].
  apply checkLimits_true. destruct Hlim' as [[|] [|]]; split; auto; right; lia.
Qed.

(** ** What a pull leaves behind *)

Lemma emitted_keys_cons self r results :
  emitted_keys self (r :: results)
  = emitted_keys self [r] ++ emitted_keys self results.
Proof.
  unfold emitted_keys.
  destruct r as [[|elem block]|e]; try reflexivity.
  cbn [returned List.filter].
  destruct (has_key_columns self (elem :: block)); [|reflexivity].
  cbn [map concat]. rewrite app_nil_r. reflexivity.
Qed.

Lemma emitted_keys_settings self self' results :
  settings self' = settings self ->
  emitted_keys self' results = emitted_keys self results.
Proof.
  intros Hs. unfold emitted_keys.
  induction (returned results) as [|b l IH]; [reflexivity|].
  cbn [List.filter]. rewrite (has_key_columns_settings _ _ _ Hs).
  destruct (has_key_columns self b); [|assumption].
  cbn [map concat]. rewrite IH, (key_rows_settings _ _ _ Hs). reflexivity.
Qed.

Lemma emitted_keys_passthrough self block :
  getKeyColumns self block = Ok [] -> emitted_keys self [Ok block] = [].
Proof.
  intros Hget. unfold emitted_keys. destruct block as [|elem block]; [reflexivity|].
  cbn [returned List.filter]. unfold has_key_columns. rewrite Hget. reflexivity.
Qed.

Lemma emitted_keys_on_overflow self self' :
  emitted_keys self [on_overflow self'] = [].
Proof. unfold on_overflow. destruct (overflow_mode self'); reflexivity. Qed.

Lemma filter_block_not_nil (block : Block) (filt : Filter) :
  block <> [] -> filter_block block filt <> [].
Proof. destruct block; [congruence | discriminate]. Qed.

Lemma has_key_columns_filter_block self block filt cols :
  getKeyColumns self block = Ok cols -> cols <> [] ->
  has_key_columns self (filter_block block filt) = true.
Proof.
  intros Hget Hne. unfold has_key_columns.
  rewrite getKeyColumns_filter_block, Hget. simpl.
  destruct cols; [congruence | reflexivity].
Qed.

Lemma emitted_keys_filter_block self block filt cols :
  block <> [] -> wf_block block -> length filt = rows block ->
  getKeyColumns self block = Ok cols -> cols <> [] ->
  emitted_keys self [Ok (filter_block block filt)]
  = select filt (rows_of cols (rows block)).
Proof.
  intros Hne Hwf Hlen Hget Hcols. unfold emitted_keys.
  pose proof (filter_block_not_nil block filt Hne) as Hfb.
  destruct (filter_block block filt) as [|e b] eqn:Heq; [congruence|].
  cbn [returned List.filter]. rewrite <- Heq.
  rewrite (has_key_columns_filter_block _ _ _ _ Hget Hcols).
  cbn [map concat]. rewrite app_nil_r.
  rewrite key_rows_filter_block by assumption.
  unfold key_rows. rewrite Hget. reflexivity.
Qed.

Lemma pull_keys_refl self r :
  emitted_keys self [r] = [] -> pull_keys self r self.
Proof.
  intros He. split; [reflexivity|]. exists []. rewrite app_nil_r. auto.
Qed.

Lemma turn_return_keys self block r self' :
  wf_block block ->
  readImpl_turn self block = Return r self' ->
  pull_keys self r self'.
Proof.
  intros Hwf Ht. pose proof (readImpl_turn_outcome self block) as Hout.
  rewrite Ht in Hout.
  inversion Hout as [Hnil|e Hne Hget|Hne Hget| |cols d2 filt Hne Hget Hcols Hpass Hsel Hlim
                    |cols d2 filt Hne Hget Hcols Hpass Hsel Hlim]; subst.
  - apply pull_keys_refl. reflexivity.
  - apply pull_keys_refl. reflexivity.
  - apply pull_keys_refl. apply emitted_keys_passthrough. assumption.
  - destruct (pass_spec _ _ _ _ _ Hpass) as (Hlen & Hst & Hnd & _).
    split; [reflexivity|]. eexists. split; [exact Hst|]. split; [exact Hnd|].
    left. apply emitted_keys_on_overflow.
  - destruct (pass_spec _ _ _ _ _ Hpass) as (Hlen & Hst & Hnd & _).
    split; [reflexivity|]. eexists. split; [exact Hst|]. split; [exact Hnd|].
    right. split; [|split; assumption].
    apply emitted_keys_filter_block; assumption.
Qed.

Lemma pull_keys_set_children self r self' up :
  pull_keys self r self' -> pull_keys self r (set_children self' up).
Proof.
  intros (Hs & added & Hst & Hnd & He). split; [exact Hs|].
  exists added. split; [exact Hst|]. split; [exact Hnd|]. exact He.
Qed.

Lemma pull_keys_continue self self0 r self' :
  settings self0 = settings self ->
  stored (data self0) = stored (data self) ->
  pull_keys self0 r self' -> pull_keys self r self'.
Proof.
  intros Hs Hd (Hs' & added & Hst & Hnd & He).
  split; [congruence|]. exists added. rewrite <- Hd.
  rewrite <- (emitted_keys_settings _ _ _ Hs). auto.
Qed.

Lemma readImpl_loop_keys self up :
  Forall wf_block up ->
  pull_keys self (readImpl_loop self up).1 (readImpl_loop self up).2.
Proof.
  revert self up. apply (readImpl_loop_turns
    (fun self up res => Forall wf_block up -> pull_keys self res.1 res.2)).
  - intros self up _ _. apply pull_keys_set_children, pull_keys_refl. reflexivity.
  - intros self _ _. apply pull_keys_set_children, pull_keys_refl. reflexivity.
  - intros self block rest r self' _ Ht Hwf. apply pull_keys_set_children.
    apply Forall_cons in Hwf as [Hwf _].
    eapply turn_return_keys; eassumption.
  - intros self block rest self' _ Ht IH Hwf.
    apply Forall_cons in Hwf as [_ Hwf].
    apply turn_continue_stored in Ht as [Hs Hd].
    eapply pull_keys_continue; eauto.
Qed.

(** A pull takes blocks off the front of what is to come. *)
Lemma readImpl_loop_children self up :
  exists consumed, up = consumed ++ children (readImpl_loop self up).2.
Proof.
  revert self up. apply (readImpl_loop_turns
    (fun self up res => exists consumed, up = consumed ++ children res.2)).
  - intros self up _. exists []. reflexivity.
  - intros self _. exists []. reflexivity.
  - intros self block rest r self' _ _. exists [block]. reflexivity.
  - intros self block rest self' _ _ [consumed Hc]. exists (block :: consumed).
    simpl. rewrite <- Hc. reflexivity.
Qed.

Lemma readImpl_children_wf self :
  Forall wf_block (children self) ->
  Forall wf_block (children (readImpl self).2).
Proof.
  intros Hwf. unfold readImpl.
  destruct (readImpl_loop_children self (children self)) as [consumed Hc].
  rewrite Hc in Hwf. apply Forall_app in Hwf as [_ Hwf]. exact Hwf.
Qed.

(** ** What a run of pulls leaves behind *)

Lemma read_n_S n self :
  read_n (S n) self
  = ((readImpl self).1 :: (read_n n (readImpl self).2).1,
     (read_n n (readImpl self).2).2).
Proof.
  simpl. destruct (readImpl self) as [r self']. simpl.
  destruct (read_n n self') as [rs self'']. reflexivity.
Qed.

Lemma read_n_keys n self :
  Forall wf_block (children self) ->
  settings (read_n n self).2 = settings self /\
  exists added,
    stored (data (read_n n self).2) = stored (data self) ++ added /\
    (NoDup (stored (data self)) -> NoDup (stored (data (read_n n self).2))) /\
    emitted_keys self (read_n n self).1 `sublist_of` added /\
    (max_rows self <> 0 ->
     emitted_keys self (read_n n self).1 = [] \/
     N.of_nat (length (stored (data self))
               + length (emitted_keys self (read_n n self).1))
     <= max_rows self).
Proof.
  revert self. induction n as [|n IH]; intros self Hwf.
  - simpl. split; [reflexivity|]. exists []. rewrite app_nil_r.
    split; [reflexivity|]. split; [auto|]. split; [apply sublist_nil_l|].
    intros _. left. reflexivity.
  - rewrite read_n_S. cbn [fst snd].
    pose proof (readImpl_loop_keys self (children self) Hwf)
      as (Hs & added1 & Hst1 & Hnd1 & He1).
    fold (readImpl self) in *.
    destruct (IH _ (readImpl_children_wf self Hwf))
      as (Hs2 & added2 & Hst2 & Hnd2 & Hsub2 & Hmax2).
    rewrite (emitted_keys_settings _ _ _ Hs) in Hsub2, Hmax2.
    split; [congruence|]. exists (added1 ++ added2).
    split; [rewrite Hst2, Hst1, app_assoc; reflexivity|].
    split; [auto|].
    rewrite emitted_keys_cons. split.
    + destruct He1 as [->|(-> & _)].
      * simpl. apply sublist_inserts_l. assumption.
      * apply sublist_app; [reflexivity | assumption].
    + intros Hmax.
      assert (Hmax' : max_rows (readImpl self).2 <> 0).
      { apply settings_inv in Hs as (_ & _ & -> & _). assumption. }
      specialize (Hmax2 Hmax').
      apply settings_inv in Hs as (_ & _ & Hr & _). rewrite Hr in Hmax2.
      destruct He1 as [->|(-> & Hne & Hlim)].
      * simpl. destruct Hmax2 as [->|Hmax2]; [left; reflexivity|right].
        rewrite Hst1, length_app in Hmax2. lia.
      * right. apply checkLimits_true in Hlim as [[Hz|Hrows] _];
          [congruence|]. rewrite Hr in Hrows.
        unfold getTotalRowCount in Hrows. rewrite Hst1, length_app in Hrows.
        destruct Hmax2 as [->|Hmax2].
        -- rewrite app_nil_r. lia.
        -- rewrite Hst1 in Hmax2. rewrite !length_app in *. lia.
Qed.

(** ** The rows handed out *)

Lemma returned_rows_cons r results :
  returned_rows (r :: results) = returned_rows [r] ++ returned_rows results.
Proof.
  unfold returned_rows. destruct r as [[|elem block]|e]; try reflexivity.
  cbn [returned map concat]. rewrite app_nil_r. reflexivity.
Qed.

Lemma returned_rows_ok block : returned_rows [Ok block] = block_rows block.
Proof.
  unfold returned_rows. destruct block as [|elem block]; [reflexivity|].
  cbn [returned map concat]. apply app_nil_r.
Qed.

Lemma returned_rows_on_overflow self : returned_rows [on_overflow self] = [].
Proof. unfold on_overflow. destruct (overflow_mode self); reflexivity. Qed.

Lemma turn_return_rows self block r self' :
  wf_block block ->
  readImpl_turn self block = Return r self' ->
  returned_rows [r] `sublist_of` block_rows block.
Proof.
  intros Hwf Ht. pose proof (readImpl_turn_outcome self block) as Hout.
  rewrite Ht in Hout.
  inversion Hout as [Hnil|e Hne Hget|Hne Hget| |cols d2 filt Hne Hget Hcols Hpass Hsel Hlim
                    |cols d2 filt Hne Hget Hcols Hpass Hsel Hlim]; subst.
  - apply sublist_nil_l.
  - apply sublist_nil_l.
  - rewrite returned_rows_ok. reflexivity.
  - rewrite returned_rows_on_overflow. apply sublist_nil_l.
  - destruct (pass_spec _ _ _ _ _ Hpass) as (Hlen & _).
    rewrite returned_rows_ok, block_rows_filter_block by assumption.
    apply select_sublist.
Qed.

Lemma readImpl_loop_rows self up :
  Forall wf_block up ->
  exists consumed,
    up = consumed ++ children (readImpl_loop self up).2 /\
    returned_rows [(readImpl_loop self up).1]
      `sublist_of` concat (map block_rows consumed).
Proof.
  revert self up. apply (readImpl_loop_turns
    (fun self up res => Forall wf_block up ->
       exists consumed, up = consumed ++ children res.2 /\
         returned_rows [res.1] `sublist_of` concat (map block_rows consumed))).
  - intros self up _ _. exists []. split; [reflexivity | apply sublist_nil_l].
  - intros self _ _. exists []. split; [reflexivity | apply sublist_nil_l].
  - intros self block rest r self' _ Ht Hwf.
    apply Forall_cons in Hwf as [Hwf _].
    exists [block]. split; [reflexivity|]. cbn [map concat fst].
    rewrite app_nil_r. eapply turn_return_rows; eassumption.
  - intros self block rest self' _ _ IH Hwf.
    apply Forall_cons in Hwf as [_ Hwf].
    destruct (IH Hwf) as (consumed & Hc & Hsub).
    exists (block :: consumed). split; [simpl; rewrite <- Hc; reflexivity|].
    cbn [map concat]. apply sublist_inserts_l. assumption.
Qed.

Lemma read_n_rows n self :
  Forall wf_block (children self) ->
  exists consumed,
    children self = consumed ++ children (read_n n self).2 /\
    returned_rows (read_n n self).1 `sublist_of` concat (map block_rows consumed).
Proof.
  revert self. induction n as [|n IH]; intros self Hwf.
  - exists []. split; [reflexivity | apply sublist_nil_l].
  - rewrite read_n_S. cbn [fst snd].
    destruct (readImpl_loop_rows self (children self) Hwf)
      as (consumed1 & Hc1 & Hsub1).
    fold (readImpl self) in *.
    destruct (IH _ (readImpl_children_wf self Hwf)) as (consumed2 & Hc2 & Hsub2).
    exists (consumed1 ++ consumed2).
    split; [rewrite <- app_assoc, <- Hc2; exact Hc1|].
    rewrite returned_rows_cons, map_app, concat_app.
    apply sublist_app; assumption.
Qed.

(** ** The block a pull hands out *)

Lemma turn_return_origin self block rest b self' :
  limit_hint_reached self = false ->
  readImpl_turn self block = Return (Ok b) self' ->
  block_origin self (block :: rest) b.
Proof.
  intros Hh Ht. pose proof (readImpl_turn_outcome self block) as Hout.
  rewrite Ht in Hout.
  inversion Hout as [Hnil|e Hne Hget|Hne Hget| |cols d2 filt Hne Hget Hcols Hpass Hsel Hlim
                    |cols d2 filt Hne Hget Hcols Hpass Hsel Hlim]; subst.
  - left. reflexivity.
  - right. do 3 eexists. split; [apply pulls_first; eassumption|].
    left. auto.
  - match goal with
    | H : on_overflow _ = Ok _ |- _ =>
        unfold on_overflow, Block_empty in H;
        destruct (overflow_mode _); inversion H
    end.
    left. reflexivity.
  - right. do 3 eexists. split; [apply pulls_first; eassumption|].
    right. exists cols, d2, filt. auto.
Qed.

Lemma block_origin_later self skipped up self0 b :
  limit_hint_reached self = false ->
  readImpl_turn self skipped = Continue self0 ->
  block_origin self0 up b -> block_origin self (skipped :: up) b.
Proof.
  intros Hh Ht [->|(at_ & block & rest & Hp & Hb)]; [left; reflexivity|].
  right. exists at_, block, rest.
  split; [eapply pulls_later; eassumption|].
  apply turn_continue_stored in Ht as [Hs _].
  rewrite <- (getKeyColumns_settings _ _ _ Hs). assumption.
Qed.

Lemma readImpl_loop_origin self up b :
  (readImpl_loop self up).1 = Ok b -> block_origin self up b.
Proof.
  revert self up. apply (readImpl_loop_turns
    (fun self up res => res.1 = Ok b -> block_origin self up b)).
  - intros self up _ [= <-]. left. reflexivity.
  - intros self _ [= <-]. left. reflexivity.
  - intros self block rest r self' Hh Ht Hr. simpl in Hr. subst r.
    eapply turn_return_origin; eassumption.
  - intros self block rest self' Hh Ht IH Hr.
    eapply block_origin_later; eauto.
Qed.

Lemma pulls_block_elem_of self up at_ block rest :
  pulls_block self up at_ block rest -> block ∈ up.
Proof. induction 1; [left | right; assumption]. Qed.

(** ** Rows over the candidate key columns *)

Lemma key_candidates_settings self self' (block : Block) :
  settings self' = settings self ->
  key_candidates self' block = key_candidates self block.
Proof.
  intros Hs. apply settings_inv in Hs as (Hn & _).
  unfold key_candidates. rewrite Hn. reflexivity.
Qed.

Lemma same_key_columns_settings self self' pattern blocks :
  settings self' = settings self ->
  same_key_columns self pattern blocks -> same_key_columns self' pattern blocks.
Proof.
  intros Hs Hsame. unfold same_key_columns in *.
  eapply Forall_impl; [exact Hsame|]. cbn beta. intros b Hb.
  rewrite (key_candidates_settings _ _ _ Hs). exact Hb.
Qed.

(** [getKeyColumns] keeps the candidates that are not constant. *)
Lemma getKeyColumns_candidates self (block : Block) cols :
  getKeyColumns self block = Ok cols ->
  cols = List.filter plain (key_candidates self block).
Proof.
  unfold key_candidates. case_bool_decide as Hn.
  - rewrite (getKeyColumns_positional _ _ Hn). congruence.
  - rewrite (getKeyColumns_named _ _ Hn).
    destruct (lookup_names block (columns_names self)); simpl; congruence.
Qed.

Lemma key_candidates_filter_block self (block : Block) (filt : Filter) :
  key_candidates self (filter_block block filt)
  = map (fun c => filter c filt) (key_candidates self block).
Proof.
  unfold key_candidates. case_bool_decide as Hn.
  - unfold filter_block. rewrite !map_map. reflexivity.
  - rewrite lookup_names_filter_block.
    destruct (lookup_names block (columns_names self)); simpl; [|reflexivity].
    unfold filter_block. rewrite !map_map. reflexivity.
Qed.

Lemma isConst_key_candidates_filter_block self (block : Block) (filt : Filter) :
  map isConst (key_candidates self (filter_block block filt))
  = map isConst (key_candidates self block).
Proof.
  rewrite key_candidates_filter_block, map_map.
  apply map_ext. intros c. apply isConst_filter.
Qed.

Lemma map_filter_select {A B} (p : A -> bool) (f : A -> B) (l : list A) :
  map f (List.filter p l) = select (map p l) (map f l).
Proof.
  induction l as [|a l IH]; [reflexivity|].
  simpl. destruct (p a); simpl; congruence.
Qed.

Lemma filter_plain_not_nil (cols : list IColumn) :
  false ∈ map isConst cols -> List.filter plain cols <> [].
Proof.
  induction cols as [|c cols IH]; simpl; intros Hin; [inversion Hin|].
  unfold plain at 1. apply elem_of_cons in Hin as [Hc|Hin].
  - rewrite <- Hc. discriminate.
  - destruct (isConst c); simpl; [auto | discriminate].
Qed.

(** With a candidate that is not constant, the lookups succeed and the
    block has a key column. *)
Lemma getKeyColumns_pattern self (block : Block) pattern :
  map isConst (key_candidates self block) = pattern ->
  false ∈ pattern ->
  getKeyColumns self block = Ok (List.filter plain (key_candidates self block)) /\
  List.filter plain (key_candidates self block) <> [].
Proof.
  intros Hp Hin.
  assert (Hne : List.filter plain (key_candidates self block) <> []).
  { rewrite <- Hp in Hin. apply filter_plain_not_nil. assumption. }
  split; [|assumption].
  revert Hne. unfold key_candidates. case_bool_decide as Hn.
  - intros _. apply getKeyColumns_positional. assumption.
  - rewrite (getKeyColumns_named _ _ Hn).
    destruct (lookup_names block (columns_names self)); simpl;
      [reflexivity | congruence].
Qed.

Lemma has_key_columns_pattern self (block : Block) pattern :
  map isConst (key_candidates self block) = pattern ->
  false ∈ pattern ->
  has_key_columns self block = true.
Proof.
  intros Hp Hin. destruct (getKeyColumns_pattern _ _ _ Hp Hin) as [Hget Hne].
  unfold has_key_columns. rewrite Hget.
  destruct (List.filter plain (key_candidates self block)); congruence.
Qed.

(** The key of a row is what is left of its values over the candidate key
    columns without the constant ones. *)
Lemma key_rows_plain_part self (block : Block) pattern :
  map isConst (key_candidates self block) = pattern ->
  false ∈ pattern ->
  key_rows self block = map (plain_part pattern) (key_values self block).
Proof.
  intros Hp Hin. destruct (getKeyColumns_pattern _ _ _ Hp Hin) as [Hget _].
  unfold key_rows, key_values, rows_of. rewrite Hget, map_map.
  apply map_ext. intros i. unfold getKey, plain_part.
  rewrite map_filter_select. f_equal. rewrite <- Hp, map_map. reflexivity.
Qed.

Lemma length_key_values self (block : Block) :
  length (key_values self block) = length (block_rows block).
Proof. unfold key_values, block_rows. rewrite !length_rows_of. reflexivity. Qed.

(** The blocks a pull hands out agree with the blocks of the source on
    which candidate key columns are constant. *)
Lemma readImpl_same_key_columns self pattern b :
  same_key_columns self pattern (children self) ->
  (readImpl self).1 = Ok b -> b <> [] ->
  map isConst (key_candidates self b) = pattern.
Proof.
  intros Hsame Hr Hb.
  destruct (readImpl_loop_origin _ _ _ Hr)
    as [->|(at_ & block & rest & Hp & Horigin)]; [congruence|].
  pose proof (pulls_block_elem_of _ _ _ _ _ Hp) as Hin.
  unfold same_key_columns in Hsame. rewrite Forall_forall in Hsame.
  specialize (Hsame _ Hin).
  destruct Horigin as [(_ & ->)|(cols & d2 & filt & _ & _ & _ & _ & ->)].
  - assumption.
  - rewrite isConst_key_candidates_filter_block. assumption.
Qed.

Lemma returned_cons_ok (b : Block) results :
  b <> [] -> returned (Ok b :: results) = b :: returned results.
Proof. destruct b; [congruence | reflexivity]. Qed.

Lemma read_n_same_key_columns n self pattern :
  Forall wf_block (children self) ->
  same_key_columns self pattern (children self) ->
  same_key_columns self pattern (returned (read_n n self).1).
Proof.
  revert self. induction n as [|n IH]; intros self Hwf Hsame; [constructor|].
  rewrite read_n_S. cbn [fst].
  pose proof (readImpl_loop_keys self (children self) Hwf) as [Hs _].
  fold (readImpl self) in Hs.
  assert (Hrest : same_key_columns self pattern
                    (returned (read_n n (readImpl self).2).1)).
  { apply (same_key_columns_settings (readImpl self).2 self);
      [symmetry; assumption|].
    apply IH; [apply readImpl_children_wf; assumption|].
    apply (same_key_columns_settings self); [assumption|].
    destruct (readImpl_loop_children self (children self)) as [consumed Hc].
    fold (readImpl self) in Hc. unfold same_key_columns in *.
    rewrite Hc in Hsame. apply Forall_app in Hsame as [_ Hsame]. assumption. }
  destruct (readImpl self).1 as [[|elem b]|e] eqn:Hr; try exact Hrest.
  simpl. constructor; [|exact Hrest].
  eapply readImpl_same_key_columns; [eassumption | eassumption | discriminate].
Qed.

(** When the blocks of the source agree on which candidate key columns are
    constant, and one is not: every block handed out is compacted, and the
    keys handed out are, row by row, the rows handed out over the key
    columns that are not constant. *)
Lemma read_n_key_values n self pattern :
  Forall wf_block (children self) ->
  same_key_columns self pattern (children self) ->
  false ∈ pattern ->
  List.filter (has_key_columns self) (returned (read_n n self).1)
  = returned (read_n n self).1 /\
  emitted_keys self (read_n n self).1
  = map (plain_part pattern) (returned_key_values self (read_n n self).1) /\
  length (returned_rows (read_n n self).1)
  = length (emitted_keys self (read_n n self).1).
Proof.
  intros Hwf Hsame Hin.
  pose proof (read_n_same_key_columns n self pattern Hwf Hsame) as Hret.
  unfold emitted_keys, returned_key_values, returned_rows.
  unfold same_key_columns in Hret.
  induction Hret as [|b bs Hb _ IH]; [repeat split; reflexivity|].
  destruct IH as (IHf & IHk & IHl).
  assert (Hf : List.filter (has_key_columns self) (b :: bs) = b :: bs).
  { simpl. rewrite (has_key_columns_pattern _ _ _ Hb Hin), IHf. reflexivity. }
  rewrite Hf. split; [reflexivity|]. rewrite IHf in IHk, IHl. simpl.
  rewrite (key_rows_plain_part _ _ _ Hb Hin) at 1.
  split.
  - rewrite map_app, IHk. reflexivity.
  - rewrite !length_app, IHl, (key_rows_plain_part _ _ _ Hb Hin), length_map,
      length_key_values. reflexivity.
Qed.

(** * The claims of the specification *)

Lemma set_children_children self : set_children self (children self) = self.
Proof. destruct self; reflexivity. Qed.

Lemma limit_hint_reached_true self :
  limit_hint_reached self = true <->
  limit_hint self <> 0 /\ limit_hint self <= getTotalRowCount (data self).
Proof.
  unfold limit_hint_reached.
  destruct (N.eqb_spec (limit_hint self) 0);
    destruct (N.leb_spec (limit_hint self) (getTotalRowCount (data self)));
    simpl; split; try discriminate; try tauto; intros [? ?];
    try reflexivity; lia.
Qed.

(** C3. No-key passthrough: a pulled block whose key-column set resolves
    to empty is what the pull returns, exactly as it was read; the keys
    held, the row count and the byte count are those the pull started
    with; and whatever the set holds, the turn that reads the block returns
    it and leaves the set as it is. *)
Theorem no_key_passthrough self at_ (block : Block) rest :
  pulls_block self (children self) at_ block rest ->
  block <> [] ->
  getKeyColumns self block = Ok [] ->
  readImpl self = (Ok block, set_children at_ rest) /\
  stored (data at_) = stored (data self) /\
  getTotalRowCount (data at_) = getTotalRowCount (data self) /\
  getTotalByteCount (data at_) = getTotalByteCount (data self) /\
  (forall d, readImpl_turn (set_data at_ d) block
             = Return (Ok block) (set_data at_ d)).
Proof.
  intros Hp Hne Hget.
  destruct (pulls_block_stored _ _ _ _ _ Hp) as [Hs Hd].
  assert (Hturn : forall d, readImpl_turn (set_data at_ d) block
                            = Return (Ok block) (set_data at_ d)).
  { intros d. unfold readImpl_turn.
    destruct block as [|elem block]; [congruence|]. cbn [Block_not].
    rewrite (getKeyColumns_settings self (set_data at_ d) _ Hs).
    rewrite Hget. reflexivity. }
  split; [|repeat split].
  - unfold readImpl. eapply pulls_block_return; [eassumption|].
    specialize (Hturn (data at_)).
    replace (set_data at_ (data at_)) with at_ in Hturn by (destruct at_; reflexivity).
    exact Hturn.
  - exact Hd.
  - unfold getTotalRowCount. rewrite Hd. reflexivity.
  - unfold getTotalByteCount. rewrite Hd. reflexivity.
  - exact Hturn.
Qed.

(** C5. Limit Enforcer: [checkLimits] holds exactly when
    ([max_rows] is 0 or the row count is at most [max_rows]) and
    ([max_bytes] is 0 or the byte count is at most [max_bytes]); and the
    turn that found new keys in a block tests the totals of the set after
    the pass -- the rows held before plus the rows the pass selected --
    to decide between handing the compacted block out and the overflow
    mode. *)
Theorem limit_enforcer :
  (forall self,
      checkLimits self = true <->
      (max_rows self = 0 \/ getTotalRowCount (data self) <= max_rows self) /\
      (max_bytes self = 0 \/ getTotalByteCount (data self) <= max_bytes self)) /\
  (forall self (block : Block) cols d2 filt,
      block <> [] -> getKeyColumns self block = Ok cols -> cols <> [] ->
      pass self block cols = (d2, filt) ->
      select filt (rows_of cols (rows block)) <> [] ->
      getTotalRowCount d2
      = getTotalRowCount (data self) + N.of_nat (countBytesInFilter filt) /\
      readImpl_turn self block
      = if checkLimits (set_data self d2)
        then Return (Ok (filter_block block filt)) (set_data self d2)
        else Return (on_overflow (set_data self d2)) (set_data self d2)).
Proof.
  split; [exact checkLimits_true|].
  intros self block cols d2 filt Hne Hget Hcols Hpass Hsel.
  destruct (pass_spec _ _ _ _ _ Hpass) as (Hlen & Hst & _).
  split.
  - rewrite (getTotalRowCount_app _ _ _ Hst). f_equal. f_equal.
    apply length_select. rewrite length_rows_of. assumption.
  - pose proof (readImpl_turn_outcome self block) as Hout.
    inversion Hout as [Hnil|e Hne' Hget'|Hne' Hget'
                      |cols' d2' filt' Hne' Hget' Hcols' Hpass' Hsel'
                      |cols' d2' filt' Hne' Hget' Hcols' Hpass' Hsel' Hlim
                      |cols' d2' filt' Hne' Hget' Hcols' Hpass' Hsel' Hlim];
      try congruence.
    + rewrite Hget in Hget'. inversion Hget'; subst cols'.
      rewrite Hpass in Hpass'. inversion Hpass'; subst.
      rewrite Hlim. reflexivity.
    + rewrite Hget in Hget'. inversion Hget'; subst cols'.
      rewrite Hpass in Hpass'. inversion Hpass'; subst.
      rewrite Hlim. reflexivity.
Qed.

(** C7. Hint early-stop: when [limit_hint] is nonzero and the row count
    has reached it at the start of a pull, the pull signals end-of-data
    and leaves the stream as it is, its source included -- whatever the
    limits and the overflow mode; so does every later pull. *)
Theorem hint_early_stop self :
  limit_hint self <> 0 ->
  limit_hint self <= getTotalRowCount (data self) ->
  readImpl self = (Ok Block_empty, self) /\
  forall n, read_n n self = (repeat (Ok Block_empty) n, self).
Proof.
  intros Hnz Hle.
  assert (Hh : limit_hint_reached self = true)
    by (apply limit_hint_reached_true; auto).
  assert (Hr : readImpl self = (Ok Block_empty, self)).
  { unfold readImpl. rewrite readImpl_loop_hint by assumption.
    rewrite set_children_children. reflexivity. }
  split; [exact Hr|].
  induction n as [|n IH]; [reflexivity|].
  simpl. rewrite Hr, IH. reflexivity.
Qed.

Lemma getByName_throw (block : Block) (n : string) e :
  getByName block n = Throw e -> code e = NOT_FOUND_COLUMN_IN_BLOCK.
Proof.
  unfold getByName. destruct (List.find _ block); [discriminate|].
  intros [= <-]. reflexivity.
Qed.

Lemma getByName_absent (block : Block) (n : string) :
  (forall elem, elem ∈ block -> name elem <> n) ->
  exists e, getByName block n = Throw e.
Proof.
  intros Habs. unfold getByName.
  destruct (List.find _ block) as [elem|] eqn:Hfind; [|eauto].
  apply find_some in Hfind as [Hin Hname].
  apply bool_decide_eq_true in Hname.
  exfalso. eapply Habs; [apply list_elem_of_In|]; eassumption.
Qed.

Lemma lookup_names_absent (block : Block) (names : Names) (n : string) :
  n ∈ names ->
  (forall elem, elem ∈ block -> name elem <> n) ->
  exists e, lookup_names block names = Throw e /\
            code e = NOT_FOUND_COLUMN_IN_BLOCK.
Proof.
  intros Hin Habs. induction names as [|m names IH]; [inversion Hin|].
  simpl. destruct (getByName block m) as [elem|e] eqn:Hget.
  - apply elem_of_cons in Hin as [->|Hin].
    + destruct (getByName_absent block m Habs) as [e He]. congruence.
    + destruct (IH Hin) as (e & -> & Hcode). simpl. eauto.
  - simpl. exists e. split; [reflexivity|].
    eapply getByName_throw; eassumption.
Qed.

(** C10. A configured key name that a pulled block lacks makes the pull
    fail: the lookup by name throws, and the pull throws that exception;
    the turn that read the block leaves the set as it was. *)
Theorem missing_key_column_fails self at_ (block : Block) rest (n : string) :
  pulls_block self (children self) at_ block rest ->
  block <> [] ->
  n ∈ columns_names self ->
  (forall elem, elem ∈ block -> name elem <> n) ->
  exists e,
    code e = NOT_FOUND_COLUMN_IN_BLOCK /\
    getKeyColumns self block = Throw e /\
    readImpl self = (Throw e, set_children at_ rest) /\
    stored (data at_) = stored (data self).
Proof.
  intros Hp Hne Hin Habs.
  destruct (pulls_block_stored _ _ _ _ _ Hp) as [Hs Hd].
  assert (Hnames : columns_names self <> []).
  { intros Hnil. rewrite Hnil in Hin. inversion Hin. }
  destruct (lookup_names_absent block _ n Hin Habs) as (e & Hl & Hcode).
  assert (Hget : getKeyColumns self block = Throw e).
  { rewrite getKeyColumns_named by assumption. rewrite Hl. reflexivity. }
  exists e. repeat split; try assumption.
  unfold readImpl. eapply pulls_block_return; [eassumption|].
  unfold readImpl_turn. destruct block as [|elem block]; [congruence|].
  cbn [Block_not]. rewrite (getKeyColumns_settings _ _ _ Hs).
  rewrite Hget. reflexivity.
Qed.

(** C4. Throw-mode limit: with a limit [max_rows = K > 0] and overflow
    mode [THROW], the pull whose pass takes the row count from at most [K]
    to more than [K] throws the limit exception, whose text carries the row
    count, the row limit, the byte count and the byte limit after that
    pass, and hands out no block; and a pull that hands out a compacted
    block leaves a row count of at most [K]. *)
Theorem throw_mode_limit :
  (forall self at_ (block : Block) rest cols d2 filt (K : N),
      overflow_mode self = THROW -> max_rows self = K -> 0 < K ->
      pulls_block self (children self) at_ block rest ->
      block <> [] -> getKeyColumns self block = Ok cols -> cols <> [] ->
      pass at_ block cols = (d2, filt) ->
      getTotalRowCount (data at_) <= K -> K < getTotalRowCount d2 ->
      readImpl self
      = (Throw (mkException
                  ("DISTINCT-Set size limit exceeded."
                   +:+ " Rows: " +:+ toString (getTotalRowCount d2)
                   +:+ ", limit: " +:+ toString K
                   +:+ ". Bytes: " +:+ toString (getTotalByteCount d2)
                   +:+ ", limit: " +:+ toString (max_bytes self) +:+ ".")
                  SET_SIZE_LIMIT_EXCEEDED),
         set_children (set_data at_ d2) rest)) /\
  (forall self b (K : N),
      max_rows self = K -> 0 < K ->
      (readImpl self).1 = Ok b -> has_key_columns self b = true ->
      getTotalRowCount (data (readImpl self).2) <= K).
Proof.
  split.
  - intros self at_ block rest cols d2 filt K Hmode HK Hpos Hp Hne Hget Hcols
      Hpass Hbefore Hafter.
    destruct (pulls_block_stored _ _ _ _ _ Hp) as [Hs Hd].
    pose proof (settings_inv _ _ Hs) as (Hn & _ & Hr & Hb & Hm).
    unfold readImpl. eapply pulls_block_return; [eassumption|].
    pose proof (readImpl_turn_outcome at_ block) as Hout.
    rewrite <- (getKeyColumns_settings _ _ _ Hs) in Hget.
    assert (Hlim' : checkLimits (set_data at_ d2) = false).
    { destruct (checkLimits (set_data at_ d2)) eqn:Hl; [|reflexivity].
      apply checkLimits_true in Hl as [[Hz|Hle] _]; simpl in *; lia. }
    inversion Hout as [Hnil|e Hne' Hget'|Hne' Hget'
                      |cols' d2' filt' Hne' Hget' Hcols' Hpass' Hsel'
                      |cols' d2' filt' Hne' Hget' Hcols' Hpass' Hsel' Hlim
                      |cols' d2' filt' Hne' Hget' Hcols' Hpass' Hsel' Hlim];
      try congruence;
      rewrite Hget in Hget'; inversion Hget'; subst cols';
      rewrite Hpass in Hpass'; inversion Hpass'; subst d2' filt'.
    + exfalso. destruct (pass_spec _ _ _ _ _ Hpass) as (_ & Hst & _).
      rewrite Hsel', app_nil_r in Hst.
      unfold getTotalRowCount in *. rewrite Hst in Hafter. lia.
    + unfold on_overflow, limit_message. simpl. rewrite Hm, Hmode, Hr, Hb, HK.
      reflexivity.
  - intros self b K HK Hpos Hr Hkeys.
    destruct (readImpl_loop_origin _ _ _ Hr)
      as [->|(at_ & block & rest & Hp & [(Hget & ->)|Hemit])].
    + unfold has_key_columns in Hkeys.
      destruct (getKeyColumns self []) as [[|c cols]|e] eqn:Hget; try discriminate.
      apply getKeyColumns_elem_of in Hget. apply Forall_cons in Hget as [Hc _].
      inversion Hc.
    + unfold has_key_columns in Hkeys. rewrite Hget in Hkeys. discriminate.
    + destruct Hemit as (cols & d2 & filt & Hget & Hcols & Hpass & Hsel & ->).
      destruct (pulls_block_stored _ _ _ _ _ Hp) as [Hs Hd].
      pose proof (readImpl_turn_outcome at_ block) as Hout.
      rewrite <- (getKeyColumns_settings _ _ _ Hs) in Hget.
      assert (Hne : block <> []).
      { intros ->. apply getKeyColumns_elem_of in Hget.
        destruct cols; [congruence|]. apply Forall_cons in Hget as [Hc _].
        inversion Hc. }
      assert (Hturn : exists r, readImpl_turn at_ block = Return r (set_data at_ d2)).
      { inversion Hout as [Hnil|e Hne' Hget'|Hne' Hget'
                      |cols' d2' filt' Hne' Hget' Hcols' Hpass' Hsel'
                      |cols' d2' filt' Hne' Hget' Hcols' Hpass' Hsel' Hlim
                      |cols' d2' filt' Hne' Hget' Hcols' Hpass' Hsel' Hlim];
          try congruence;
          rewrite Hget in Hget'; inversion Hget'; subst cols';
          rewrite Hpass in Hpass'; inversion Hpass'; subst d2' filt';
          try congruence; eauto. }
      destruct Hturn as [r Hturn].
      unfold readImpl in *.
      rewrite (pulls_block_return _ _ _ _ _ _ _ Hp Hturn) in Hr |- *.
      cbn [fst snd] in *. subst r.
      inversion Hout as [Hnil|e Hne' Hget'|Hne' Hget'
                      |cols' d2' filt' Hne' Hget' Hcols' Hpass' Hsel'
                      |cols' d2' filt' Hne' Hget' Hcols' Hpass' Hsel' Hlim
                      |cols' d2' filt' Hne' Hget' Hcols' Hpass' Hsel' Hlim];
        try congruence;
        rewrite Hget in Hget'; inversion Hget'; subst cols';
        rewrite Hpass in Hpass'; inversion Hpass'; subst d2' filt';
        try congruence.
      * exfalso.
        match goal with
        | H : Return _ _ = readImpl_turn _ _ |- _ =>
            rewrite Hturn in H; inversion H as [[Ho Hself]]
        end.
        unfold on_overflow in Ho.
        destruct (overflow_mode (set_data at_ d2)); try discriminate.
        inversion Ho as [Hb]. symmetry in Hb.
        eapply filter_block_not_nil; eassumption.
      * apply checkLimits_true in Hlim as [[Hz|Hle] _]; simpl in *.
        -- apply settings_inv in Hs as (_ & _ & Hmr & _). lia.
        -- apply settings_inv in Hs as (_ & _ & Hmr & _). lia.
Qed.

(** No block without columns has a key column. *)
Lemma has_key_columns_nil self : has_key_columns self [] = false.
Proof.
  unfold has_key_columns.
  destruct (getKeyColumns self []) as [[|c cols]|e] eqn:Hget; try reflexivity.
  apply getKeyColumns_elem_of in Hget. apply Forall_cons in Hget as [Hc _].
  inversion Hc.
Qed.

Lemma NoDup_map_inv {A B} (f : A -> B) (l : list A) :
  NoDup (map f l) -> NoDup l.
Proof. change (map f l) with (f <$> l). apply NoDup_fmap_1. Qed.

(** The keys of the rows handed out in compacted blocks by a stream that
    starts with an empty set are pairwise different. *)
Lemma read_n_emitted_NoDup n self :
  Forall wf_block (children self) ->
  NoDup (stored (data self)) ->
  NoDup (emitted_keys self (read_n n self).1).
Proof.
  intros Hwf Hnd0.
  destruct (read_n_keys n self Hwf) as (_ & added & Hst & Hnd & Hsub & _).
  refine (sublist_NoDup _ added _ Hsub).
  specialize (Hnd Hnd0).
  rewrite Hst in Hnd. apply NoDup_app in Hnd as (_ & _ & Hadded).
  exact Hadded.
Qed.

(** C1 (amended). Uniqueness, for well-formed blocks of the source and
    whatever the settings.

    - The keys the stream builds -- for a row, its values on the key
      columns of its own block that are not constant -- are pairwise
      different over the rows of the blocks handed out compacted, that
      is, the blocks with a key column.
    - When the blocks of the source agree on which candidate key columns
      are constant ([pattern] flags them) and a candidate is not constant,
      every block handed out is compacted, these keys are the rows handed
      out over the key columns that are not constant, and so no two rows
      among all the blocks handed out have equal values on every key
      column that is not constant -- nor, then, on every candidate key
      column.

    (Without that agreement two rows with equal values on every key column
    can both be handed out, the column that tells them apart in the set
    being constant in one block only; and a block without key column is
    handed out as it is, with all its rows.) *)
Theorem uniqueness_of_compacted_blocks (input : list Block)
    (limits_max_rows limits_max_bytes : N) (mode : OverflowMode)
    (hint : N) (names : Names) (n : nat) :
  Forall wf_block input ->
  NoDup (emitted_keys
           (DistinctBlockInputStream_new input limits_max_rows
              limits_max_bytes mode hint names)
           (read_n n (DistinctBlockInputStream_new input limits_max_rows
                        limits_max_bytes mode hint names)).1) /\
  (forall pattern : list bool,
      same_key_columns
        (DistinctBlockInputStream_new input limits_max_rows
           limits_max_bytes mode hint names) pattern input ->
      false ∈ pattern ->
      List.filter
        (has_key_columns
           (DistinctBlockInputStream_new input limits_max_rows
              limits_max_bytes mode hint names))
        (returned
           (read_n n (DistinctBlockInputStream_new input limits_max_rows
                        limits_max_bytes mode hint names)).1)
      = returned
          (read_n n (DistinctBlockInputStream_new input limits_max_rows
                       limits_max_bytes mode hint names)).1 /\
      NoDup (map (plain_part pattern)
               (returned_key_values
                  (DistinctBlockInputStream_new input limits_max_rows
                     limits_max_bytes mode hint names)
                  (read_n n (DistinctBlockInputStream_new input limits_max_rows
                               limits_max_bytes mode hint names)).1)) /\
      NoDup (returned_key_values
               (DistinctBlockInputStream_new input limits_max_rows
                  limits_max_bytes mode hint names)
               (read_n n (DistinctBlockInputStream_new input limits_max_rows
                            limits_max_bytes mode hint names)).1)).
Proof.
  intros Hwf.
  set (self := DistinctBlockInputStream_new _ _ _ _ _ _).
  assert (Hkeys : NoDup (emitted_keys self (read_n n self).1))
    by (apply read_n_emitted_NoDup; [exact Hwf | apply NoDup_nil_2]).
  split; [exact Hkeys|].
  intros pattern Hsame Hplain.
  destruct (read_n_key_values n self pattern Hwf Hsame Hplain)
    as (Hall & Hrows & _).
  split; [exact Hall|].
  rewrite Hrows in Hkeys. split; [exact Hkeys|].
  eapply NoDup_map_inv. exact Hkeys.
Qed.

(** ** After a violated limit in mode [BREAK] *)

Lemma readImpl_loop_break_detect self up :
  overflow_mode self = BREAK ->
  checkLimits self = true ->
  checkLimits (readImpl_loop self up).2 = false ->
  (readImpl_loop self up).1 = Ok Block_empty.
Proof.
  revert self up. apply (readImpl_loop_turns
    (fun self up res =>
       overflow_mode self = BREAK -> checkLimits self = true ->
       checkLimits res.2 = false -> res.1 = Ok Block_empty)).
  - reflexivity.
  - reflexivity.
  - intros self block rest r self' _ Ht Hmode Hlim Hlim'. cbn [fst snd] in *.
    pose proof (readImpl_turn_outcome self block) as Hout. rewrite Ht in Hout.
    change (checkLimits (set_children self' rest)) with (checkLimits self') in Hlim'.
    inversion Hout; subst; try congruence.
    unfold on_overflow. simpl. rewrite Hmode. reflexivity.
  - intros self block rest self' _ Ht IH Hmode Hlim.
    apply turn_continue_stored in Ht as [Hs Hd].
    apply IH.
    + apply settings_inv in Hs as (_ & _ & _ & _ & ->). assumption.
    + rewrite (checkLimits_stored _ _ Hs Hd). assumption.
Qed.

Lemma readImpl_loop_break_after self up :
  overflow_mode self = BREAK ->
  checkLimits self = false ->
  Forall (fun b => has_key_columns self b = true) up ->
  (readImpl_loop self up).1 = Ok Block_empty /\
  checkLimits (readImpl_loop self up).2 = false /\
  settings (readImpl_loop self up).2 = settings self.
Proof.
  revert self up. apply (readImpl_loop_turns
    (fun self up res =>
       overflow_mode self = BREAK -> checkLimits self = false ->
       Forall (fun b => has_key_columns self b = true) up ->
       res.1 = Ok Block_empty /\ checkLimits res.2 = false /\
       settings res.2 = settings self)).
  - intros self up _ _ Hlim _. auto.
  - intros self _ _ Hlim _. auto.
  - intros self block rest r self' _ Ht Hmode Hlim Hkeys. cbn [fst snd].
    apply Forall_cons in Hkeys as [Hkey _].
    change (checkLimits (set_children self' rest)) with (checkLimits self').
    change (settings (set_children self' rest)) with (settings self').
    pose proof (readImpl_turn_outcome self block) as Hout. rewrite Ht in Hout.
    inversion Hout as [Hnil|e Hne Hget|Hne Hget|
                      |cols d2 filt Hne Hget Hcols Hpass Hsel Hlim'
                      |cols d2 filt Hne Hget Hcols Hpass Hsel Hlim']; subst.
    + rewrite has_key_columns_nil in Hkey. discriminate.
    + unfold has_key_columns in Hkey. rewrite Hget in Hkey. discriminate.
    + unfold has_key_columns in Hkey. rewrite Hget in Hkey. discriminate.
    + split; [|auto]. unfold on_overflow. simpl. rewrite Hmode. reflexivity.
    + exfalso. destruct (pass_spec _ _ _ _ _ Hpass) as (_ & Hst & _).
      assert (checkLimits (set_data self d2) = false); [|congruence].
      eapply (checkLimits_grow self); [reflexivity | exact Hst | assumption].
  - intros self block rest self' _ Ht IH Hmode Hlim Hkeys.
    apply Forall_cons in Hkeys as [_ Hkeys].
    apply turn_continue_stored in Ht as [Hs Hd].
    destruct IH as (Hr & Hl & Hs').
    + apply settings_inv in Hs as (_ & _ & _ & _ & ->). assumption.
    + rewrite (checkLimits_stored _ _ Hs Hd). assumption.
    + eapply Forall_impl; [exact Hkeys|]. cbn beta. intros b Hb.
      rewrite (has_key_columns_settings _ _ _ Hs). assumption.
    + split; [assumption|]. split; [assumption|]. congruence.
Qed.

Lemma read_n_break_after n self :
  overflow_mode self = BREAK ->
  checkLimits self = false ->
  Forall (fun b => has_key_columns self b = true) (children self) ->
  (read_n n self).1 = repeat (Ok Block_empty) n.
Proof.
  revert self. induction n as [|n IH]; intros self Hmode Hlim Hkeys;
    [reflexivity|].
  rewrite read_n_S. cbn [fst repeat].
  destruct (readImpl_loop_break_after self (children self) Hmode Hlim Hkeys)
    as (Hr & Hl & Hs).
  fold (readImpl self) in *. rewrite Hr. f_equal.
  apply IH.
  - apply settings_inv in Hs as (_ & _ & _ & _ & ->). assumption.
  - assumption.
  - destruct (readImpl_loop_children self (children self)) as [consumed Hc].
    fold (readImpl self) in Hc. rewrite Hc in Hkeys.
    apply Forall_app in Hkeys as [_ Hkeys].
    eapply Forall_impl; [exact Hkeys|]. cbn beta. intros b Hb.
    rewrite (has_key_columns_settings _ _ _ Hs). assumption.
Qed.

(** C2 (amended). Break-mode limit: in mode [BREAK], the pull in which a
    limit gets violated signals end-of-data and throws nothing; from then
    on every pull signals end-of-data for as long as the blocks the source
    delivers have a key column (a block without key column is still handed
    out as it is).  As to what has been handed out, from the first pull
    on:

    - the keys the stream builds -- for a row, its values on the key
      columns of its own block that are not constant -- are pairwise
      different over the rows of the compacted blocks, and these rows are
      at most [max_rows] when [max_rows] is not 0;
    - when the blocks of the source agree on which candidate key columns
      are constant and a candidate is not constant, no two rows among all
      the blocks handed out have equal values on every key column that is
      not constant, nor on every candidate key column, and all the blocks
      handed out hold at most [max_rows] rows when [max_rows] is not 0. *)
Theorem break_mode_limit :
  (forall self,
      overflow_mode self = BREAK ->
      checkLimits self = true ->
      checkLimits (readImpl self).2 = false ->
      (readImpl self).1 = Ok Block_empty) /\
  (forall self (n : nat),
      overflow_mode self = BREAK ->
      checkLimits self = false ->
      Forall (fun b => has_key_columns self b = true) (children self) ->
      (read_n n self).1 = repeat (Ok Block_empty) n) /\
  (forall (input : list Block) (limits_max_rows limits_max_bytes hint : N)
          (names : Names) (n : nat),
      Forall wf_block input ->
      NoDup (emitted_keys
               (DistinctBlockInputStream_new input limits_max_rows
                  limits_max_bytes BREAK hint names)
               (read_n n (DistinctBlockInputStream_new input limits_max_rows
                            limits_max_bytes BREAK hint names)).1) /\
      (limits_max_rows <> 0 ->
       N.of_nat (length
         (emitted_keys
            (DistinctBlockInputStream_new input limits_max_rows
               limits_max_bytes BREAK hint names)
            (read_n n (DistinctBlockInputStream_new input limits_max_rows
                         limits_max_bytes BREAK hint names)).1))
       <= limits_max_rows)) /\
  (forall (input : list Block) (limits_max_rows limits_max_bytes hint : N)
          (names : Names) (n : nat) (pattern : list bool),
      Forall wf_block input ->
      same_key_columns
        (DistinctBlockInputStream_new input limits_max_rows
           limits_max_bytes BREAK hint names) pattern input ->
      false ∈ pattern ->
      NoDup (map (plain_part pattern)
               (returned_key_values
                  (DistinctBlockInputStream_new input limits_max_rows
                     limits_max_bytes BREAK hint names)
                  (read_n n (DistinctBlockInputStream_new input limits_max_rows
                               limits_max_bytes BREAK hint names)).1)) /\
      NoDup (returned_key_values
               (DistinctBlockInputStream_new input limits_max_rows
                  limits_max_bytes BREAK hint names)
               (read_n n (DistinctBlockInputStream_new input limits_max_rows
                            limits_max_bytes BREAK hint names)).1) /\
      (limits_max_rows <> 0 ->
       N.of_nat (length
         (returned_rows
            (read_n n (DistinctBlockInputStream_new input limits_max_rows
                         limits_max_bytes BREAK hint names)).1))
       <= limits_max_rows)).
Proof.
  assert (Hbound : forall self (n : nat),
             Forall wf_block (children self) -> stored (data self) = [] ->
             max_rows self <> 0 ->
             N.of_nat (length (emitted_keys self (read_n n self).1))
             <= max_rows self).
  { intros self n Hwf Hnil Hnz.
    destruct (read_n_keys n self Hwf) as (_ & added & _ & _ & _ & Hmax).
    rewrite Hnil in Hmax. destruct (Hmax Hnz) as [->|Hle]; simpl in *; lia. }
  split; [|split; [|split]].
  - intros self. apply readImpl_loop_break_detect.
  - intros self n. apply read_n_break_after.
  - intros input limits_max_rows limits_max_bytes hint names n Hwf.
    set (self := DistinctBlockInputStream_new _ _ _ _ _ _).
    split.
    + apply read_n_emitted_NoDup; [exact Hwf | apply NoDup_nil_2].
    + apply (Hbound self n Hwf eq_refl).
  - intros input limits_max_rows limits_max_bytes hint names n pattern
      Hwf Hsame Hplain.
    set (self := DistinctBlockInputStream_new _ _ _ _ _ _) in *.
    assert (Hkeys : NoDup (emitted_keys self (read_n n self).1))
      by (apply read_n_emitted_NoDup; [exact Hwf | apply NoDup_nil_2]).
    destruct (read_n_key_values n self pattern Hwf Hsame Hplain)
      as (_ & Hrows & Hlen).
    split; [|split].
    + rewrite <- Hrows. exact Hkeys.
    + eapply NoDup_map_inv. rewrite <- Hrows. exact Hkeys.
    + intros Hnz. rewrite Hlen. apply (Hbound self n Hwf eq_refl Hnz).
Qed.

Lemma getKeyColumns_block_not_nil self (block : Block) cols :
  getKeyColumns self block = Ok cols -> cols <> [] -> block <> [].
Proof.
  intros Hget Hcols ->. apply getKeyColumns_elem_of in Hget.
  destruct cols as [|c cols]; [congruence|].
  apply Forall_cons in Hget as [Hc _]. inversion Hc.
Qed.

Lemma select_not_nil_count {A} (filt : Filter) (l : list A) :
  length filt = length l -> select filt l <> [] ->
  (1 <= countBytesInFilter filt)%nat.
Proof.
  intros Hlen Hsel. rewrite <- (length_select filt l Hlen).
  destruct (select filt l); [congruence | simpl; lia].
Qed.

(** C6. Empty-result suppression: a block a pull hands out -- the
    end-of-data signal apart -- is either a block of the source without key
    column, as it was read, or a compacted block with at least one row,
    all of whose keys are new to the set; and a pulled block with key
    columns whose keys the set holds already is dropped: the turn
    continues with the next block of the source, the set as it was. *)
Theorem empty_result_suppression :
  (forall self (b : Block),
      Forall wf_block (children self) ->
      (readImpl self).1 = Ok b -> b <> [] ->
      (getKeyColumns self b = Ok [] /\ b ∈ children self) \/
      (has_key_columns self b = true /\
       (1 <= rows b)%nat /\
       length (key_rows self b) = rows b /\
       forall key, key ∈ key_rows self b -> key ∉ stored (data self))) /\
  (forall self at_ (block : Block) rest cols,
      pulls_block self (children self) at_ block rest ->
      block <> [] -> getKeyColumns self block = Ok cols -> cols <> [] ->
      (forall key, key ∈ key_rows self block -> key ∈ stored (data at_)) ->
      exists self',
        readImpl_turn at_ block = Continue self' /\
        stored (data self') = stored (data at_) /\
        readImpl self = readImpl_loop self' rest).
Proof.
  split.
  - intros self b Hwf Hr Hb.
    destruct (readImpl_loop_origin _ _ _ Hr)
      as [->|(at_ & block & rest & Hp & [(Hget & ->)|Hemit])]; [congruence| |].
    + left. split; [assumption|]. eapply pulls_block_elem_of; eassumption.
    + right. destruct Hemit as (cols & d2 & filt & Hget & Hcols & Hpass & Hsel & ->).
      pose proof (getKeyColumns_block_not_nil _ _ _ Hget Hcols) as Hne.
      assert (Hwfb : wf_block block).
      { eapply Forall_forall in Hwf; [eassumption|].
        eapply pulls_block_elem_of; eassumption. }
      destruct (pass_spec _ _ _ _ _ Hpass) as (Hlen & _ & _ & Hnew).
      destruct (pulls_block_stored _ _ _ _ _ Hp) as [_ Hd].
      assert (Hkr : key_rows self (filter_block block filt)
                    = select filt (rows_of cols (rows block))).
      { rewrite key_rows_filter_block by assumption.
        unfold key_rows. rewrite Hget. reflexivity. }
      assert (Hsl : length filt = length (rows_of cols (rows block)))
        by (rewrite length_rows_of; assumption).
      split; [eapply has_key_columns_filter_block; eassumption|].
      rewrite rows_filter_block by assumption.
      split; [eapply select_not_nil_count; eassumption|].
      split; [rewrite Hkr; apply length_select; assumption|].
      intros key Hkey. rewrite Hkr in Hkey. rewrite <- Hd. auto.
  - intros self at_ block rest cols Hp Hne Hget Hcols Hseen.
    destruct (pulls_block_stored _ _ _ _ _ Hp) as [Hs Hd].
    unfold key_rows in Hseen. rewrite Hget in Hseen.
    rewrite <- (getKeyColumns_settings _ _ _ Hs) in Hget.
    assert (Hpass : pass at_ block cols
                    = (init_if_empty (data at_) cols, repeat false (rows block))).
    { unfold pass. apply run_buildFilter_seen.
      rewrite stored_init_if_empty. assumption. }
    exists (set_data at_ (init_if_empty (data at_) cols)).
    assert (Hturn : readImpl_turn at_ block
                    = Continue (set_data at_ (init_if_empty (data at_) cols))).
    { pose proof (readImpl_turn_outcome at_ block) as Hout.
      inversion Hout as [Hnil|e Hne' Hget'|Hne' Hget'
                      |cols' d2' filt' Hne' Hget' Hcols' Hpass' Hsel'
                      |cols' d2' filt' Hne' Hget' Hcols' Hpass' Hsel' Hlim
                      |cols' d2' filt' Hne' Hget' Hcols' Hpass' Hsel' Hlim];
        try congruence;
        rewrite Hget in Hget'; inversion Hget'; subst cols';
        rewrite Hpass in Hpass'; inversion Hpass'; subst d2' filt';
        try reflexivity;
        rewrite select_repeat_false in Hsel'; congruence. }
    split; [exact Hturn|]. split; [apply stored_init_if_empty|].
    unfold readImpl. eapply pulls_block_continue; eassumption.
Qed.

(** The row a set flag selects comes out at the position that counts the
    flags set before it. *)
Lemma select_lookup {A} (filt : Filter) (l : list A) (i : nat) (x : A) :
  filt !! i = Some true -> l !! i = Some x ->
  select filt l !! countBytesInFilter (take i filt) = Some x.
Proof.
  revert l i. induction filt as [|b filt IH]; intros l i Hf Hl;
    [inversion Hf|].
  destruct l as [|y l]; [inversion Hl|].
  destruct i as [|i].
  - simpl in Hf, Hl. inversion Hf; subst b. inversion Hl; subst y. reflexivity.
  - simpl in Hf, Hl. cbn [take]. rewrite countBytesInFilter_cons.
    specialize (IH l i Hf Hl). destruct b; simpl; exact IH.
Qed.

(** C8. Order preservation.

    - Compaction, the last loop of [readImpl], by a mask with a flag per
      row: the columns keep their places and names; every column, by
      itself, keeps the values at the rows whose flag is set, in their
      order; so the rows of the compacted block are the rows of the block
      whose flag is set, in their order: as many as flags are set, the
      row of a set flag at the position that counts the flags set before
      it.
    - The blocks a pull hands out -- the end-of-data signal apart -- are
      exactly these: the block the pull read from the source, as it was
      read if it has no key column, and else, if the pass over it found a
      new key and left the limits kept, compacted by the mask that pass
      filled, which has a flag per row of the block.
    - The rows of the blocks handed out, in the order handed out, are a
      subsequence of the rows of the blocks of the source. *)
Theorem order_preservation :
  (forall (block : Block) (filt : Filter),
      wf_block block -> length filt = rows block ->
      map name (filter_block block filt) = map name block /\
      (forall j elem,
          block !! j = Some elem ->
          exists elem',
            filter_block block filt !! j = Some elem' /\
            name elem' = name elem /\
            values (column elem') = select filt (values (column elem))) /\
      block_rows (filter_block block filt) = select filt (block_rows block) /\
      length (block_rows (filter_block block filt)) = countBytesInFilter filt /\
      (forall i row,
          filt !! i = Some true -> block_rows block !! i = Some row ->
          block_rows (filter_block block filt)
            !! countBytesInFilter (take i filt) = Some row)) /\
  (forall self (b : Block),
      b <> [] ->
      ((readImpl self).1 = Ok b <->
       exists at_ block rest,
         pulls_block self (children self) at_ block rest /\
         ((getKeyColumns self block = Ok [] /\ b = block) \/
          exists cols,
            getKeyColumns self block = Ok cols /\ cols <> [] /\
            select (pass at_ block cols).2 (rows_of cols (rows block)) <> [] /\
            checkLimits (set_data at_ (pass at_ block cols).1) = true /\
            b = filter_block block (pass at_ block cols).2))) /\
  (forall self at_ (block : Block) rest cols,
      pulls_block self (children self) at_ block rest ->
      getKeyColumns self block = Ok cols ->
      block ∈ children self /\ length (pass at_ block cols).2 = rows block) /\
  (forall self (n : nat),
      Forall wf_block (children self) ->
      returned_rows (read_n n self).1
        `sublist_of` concat (map block_rows (children self))).
Proof.
  split; [|split; [|split]].
  - intros block filt Hwf Hlen.
    pose proof (block_rows_filter_block block filt Hwf Hlen) as Hrows.
    assert (Hsl : length filt = length (block_rows block))
      by (unfold block_rows; rewrite length_rows_of; assumption).
    split; [|split; [|split; [|split]]].
    + unfold filter_block. rewrite map_map. reflexivity.
    + intros j elem Hj.
      exists (mkColumn (filter (column elem) filt) (name elem)).
      split; [|split].
      * unfold filter_block. rewrite list_lookup_fmap_Some_2 with (x := elem);
          [reflexivity | assumption].
      * reflexivity.
      * cbn [column]. apply values_filter.
        unfold wf_block in Hwf. rewrite Forall_forall in Hwf.
        rewrite Hlen. apply Hwf. eapply list_elem_of_lookup_2. eassumption.
    + exact Hrows.
    + rewrite Hrows. apply length_select. assumption.
    + intros i row Hi Hrow. rewrite Hrows. apply select_lookup; assumption.
  - intros self b Hb. split.
    + intros Hr.
      destruct (readImpl_loop_origin _ _ _ Hr)
        as [->|(at_ & block & rest & Hp & Horigin)]; [congruence|].
      exists at_, block, rest. split; [assumption|].
      destruct Horigin
        as [Hpass|(cols & d2 & filt & Hget & Hcols & Hpass & Hsel & ->)];
        [left; assumption|].
      right. exists cols. rewrite Hpass. cbn [fst snd].
      split; [assumption|]. split; [assumption|]. split; [assumption|].
      split; [|reflexivity].
      destruct (checkLimits (set_data at_ d2)) eqn:Hlim; [reflexivity|].
      exfalso.
      destruct (pulls_block_stored _ _ _ _ _ Hp) as [Hs _].
      rewrite <- (getKeyColumns_settings _ _ _ Hs) in Hget.
      pose proof (getKeyColumns_block_not_nil _ _ _ Hget Hcols) as Hne.
      assert (Hturn : readImpl_turn at_ block
                      = Return (on_overflow (set_data at_ d2)) (set_data at_ d2)).
      { pose proof (readImpl_turn_outcome at_ block) as Hout.
        inversion Hout as [Hnil|e Hne' Hget'|Hne' Hget'
                        |cols' d2' filt' Hne' Hget' Hcols' Hpass' Hsel'
                        |cols' d2' filt' Hne' Hget' Hcols' Hpass' Hsel' Hlim'
                        |cols' d2' filt' Hne' Hget' Hcols' Hpass' Hsel' Hlim'];
          try congruence;
          rewrite Hget in Hget'; inversion Hget'; subst cols';
          rewrite Hpass in Hpass'; inversion Hpass'; subst d2' filt';
          congruence. }
      pose proof (pulls_block_return _ _ _ _ _ _ _ Hp Hturn) as Hloop.
      unfold readImpl in Hr. rewrite Hloop in Hr. cbn [fst] in Hr.
      unfold on_overflow in Hr.
      destruct (overflow_mode (set_data at_ d2)); inversion Hr.
      apply Hb. symmetry. eassumption.
    + intros (at_ & block & rest & Hp & Horigin).
      destruct (pulls_block_stored _ _ _ _ _ Hp) as [Hs _].
      assert (Hturn : exists self', readImpl_turn at_ block = Return (Ok b) self').
      { pose proof (readImpl_turn_outcome at_ block) as Hout.
        destruct Horigin as [(Hget & ->)|(cols & Hget & Hcols & Hsel & Hlim & ->)];
          rewrite <- (getKeyColumns_settings _ _ _ Hs) in Hget.
        - inversion Hout as [Hnil|e Hne' Hget'|Hne' Hget'
                          |cols' d2' filt' Hne' Hget' Hcols' Hpass' Hsel'
                          |cols' d2' filt' Hne' Hget' Hcols' Hpass' Hsel' Hlim'
                          |cols' d2' filt' Hne' Hget' Hcols' Hpass' Hsel' Hlim'];
            try congruence; eauto.
        - destruct (pass at_ block cols) as [d2 filt] eqn:Hpass.
          cbn [fst snd] in *.
          inversion Hout as [Hnil|e Hne' Hget'|Hne' Hget'
                          |cols' d2' filt' Hne' Hget' Hcols' Hpass' Hsel'
                          |cols' d2' filt' Hne' Hget' Hcols' Hpass' Hsel' Hlim'
                          |cols' d2' filt' Hne' Hget' Hcols' Hpass' Hsel' Hlim'];
            try congruence;
            try (subst block; simpl in Hb; congruence);
            rewrite Hget in Hget'; inversion Hget'; subst cols';
            rewrite Hpass in Hpass'; inversion Hpass'; subst d2' filt';
            try congruence; eauto. }
      destruct Hturn as [self' Hturn].
      unfold readImpl.
      rewrite (pulls_block_return _ _ _ _ _ _ _ Hp Hturn). reflexivity.
  - intros self at_ block rest cols Hp Hget.
    split; [eapply pulls_block_elem_of; eassumption|].
    destruct (pass at_ block cols) as [d2 filt] eqn:Hpass.
    destruct (pass_spec _ _ _ _ _ Hpass) as (Hlen & _). exact Hlen.
  - intros self n Hwf.
    destruct (read_n_rows n self Hwf) as (consumed & Hc & Hsub).
    rewrite Hc, map_app, concat_app. apply sublist_inserts_r. assumption.
Qed.

End DistinctProperties.

(** * The read buffer over a file: its error kinds *)

Section ReadBufferFromFileProperties.

Context `{platform : Platform}.

Local Open Scope Z_scope.

(** C9. The error kinds of the file buffer: opening by name fails with
    [FILE_DOESNT_EXIST] exactly when [open] fails with [ENOENT], and with
    [CANNOT_OPEN_FILE] whenever [open] fails otherwise; [close] fails with
    [CANNOT_CLOSE_FILE] exactly when [::close] fails, and else leaves the
    buffer without descriptor. *)
Theorem file_error_kinds (file_name_ : string) (flags : Z)
    (self : ReadBufferFromFile) :
  (throws (ReadBufferFromFile_open file_name_ flags) FILE_DOESNT_EXIST <->
   (sys_open file_name_ (open_flags flags)).1 = -1 /\
   (sys_open file_name_ (open_flags flags)).2 = ENOENT) /\
  ((sys_open file_name_ (open_flags flags)).1 = -1 ->
   (sys_open file_name_ (open_flags flags)).2 <> ENOENT ->
   throws (ReadBufferFromFile_open file_name_ flags) CANNOT_OPEN_FILE) /\
  (throws (close self) CANNOT_CLOSE_FILE <-> sys_close (fd self) <> 0) /\
  (sys_close (fd self) = 0 ->
   close self = Ok (mkReadBuffer (-1) (file_name self))).
Proof.
  unfold throws, ReadBufferFromFile_open, close, throwFromErrno.
  destruct (sys_open file_name_ (open_flags flags)) as [fd_ errno].
  cbn [fst snd].
  split; [|split; [|split]].
  - destruct (Z.eqb_spec fd_ (-1)) as [Hfd|Hfd].
    + destruct (Z.eqb_spec errno ENOENT) as [Herr|Herr].
      * split; [auto|]. intros _. eexists. split; reflexivity.
      * split; [|intros [_ He]; congruence].
        intros (e & [= <-] & Hc). discriminate Hc.
    + split; [|intros [Hf _]; congruence].
      intros (e & He & Hc).
      destruct (o_direct flags && _); [|discriminate He].
      injection He as <-. discriminate Hc.
  - intros Hfd Herr.
    destruct (Z.eqb_spec fd_ (-1)) as [_|Hne]; [|congruence].
    destruct (Z.eqb_spec errno ENOENT) as [He|_]; [congruence|].
    eexists. split; reflexivity.
  - destruct (Z.eqb_spec (sys_close (fd self)) 0) as [Hcl|Hcl]; cbn [negb].
    + split; [|congruence]. intros (e & He & _). discriminate He.
    + split; [auto|]. intros _. eexists. split; reflexivity.
  - intros Hcl. rewrite Hcl. reflexivity.
Qed.

End ReadBufferFromFileProperties.

(** * Further properties of the DISTINCT stream *)

Section DistinctMore.

Context `{methods : SetMethods}.

(** ** [buildFilter] *)

Lemma insert_keys_flag (keys table table' : list Key) (filt : Filter)
    (i : nat) (key : Key) :
  insert_keys table keys = (table', filt) ->
  keys !! i = Some key ->
  ((filt !! i = Some true) <->
   (key ∉ table) /\ forall j, (j < i)%nat -> keys !! j <> Some key).
Proof.
  revert table table' filt i.
  induction keys as [|k keys IH]; intros table table' filt i Hins Hi;
    [discriminate|].
  simpl in Hins. unfold emplace in Hins.
  destruct (decide (k ∈ table)) as [Hk|Hk];
    destruct (insert_keys _ keys) as [t f] eqn:Hrec; inversion Hins; subst;
    destruct i as [|i]; simpl in Hi |- *.
  - injection Hi as ->. split; [discriminate | tauto].
  - rewrite (IH _ _ _ _ Hrec Hi). split.
    + intros [Hn Hj]. split; [assumption|]. intros [|j] Hlt; simpl.
      * intros [= ->]. contradiction.
      * apply Hj. lia.
    + intros [Hn Hj]. split; [assumption|]. intros j Hlt.
      apply (Hj (S j)). lia.
  - injection Hi as ->. split; [|reflexivity]. intros _. split; [assumption|].
    intros j Hlt. lia.
  - rewrite (IH _ _ _ _ Hrec Hi). split.
    + intros [Hn Hj]. split.
      * intros Hin. apply Hn. apply elem_of_app. left. assumption.
      * intros [|j] Hlt; simpl.
        -- intros [= ->]. apply Hn. apply elem_of_app. right. left.
        -- apply Hj. lia.
    + intros [Hn Hj]. split.
      * intros Hin. apply elem_of_app in Hin as [Hin|Hin]; [contradiction|].
        apply list_elem_of_singleton in Hin. subst key.
        apply (Hj 0%nat); [lia | reflexivity].
      * intros j Hlt. apply (Hj (S j)). lia.
Qed.

Lemma insert_keys_all_in (keys table table' : list Key) (filt : Filter) key :
  insert_keys table keys = (table', filt) ->
  key ∈ table' <-> key ∈ table \/ key ∈ keys.
Proof.
  revert table table' filt.
  induction keys as [|k keys IH]; intros table table' filt Hins; simpl in Hins.
  - inversion Hins; subst. split; [auto|]. intros [?|Hn]; [assumption|].
    inversion Hn.
  - unfold emplace in Hins.
    destruct (decide (k ∈ table)) as [Hk|Hk];
      destruct (insert_keys _ keys) as [t f] eqn:Hrec; inversion Hins; subst;
      rewrite (IH _ _ _ Hrec), elem_of_cons.
    + split; [tauto|]. intros [?|[->|?]]; auto.
    + rewrite elem_of_app, list_elem_of_singleton. tauto.
Qed.

Lemma rows_of_lookup (cols : list IColumn) (n i : nat) :
  (i < n)%nat -> rows_of cols n !! i = Some (getKey cols i).
Proof.
  intros Hi. unfold rows_of. rewrite list_lookup_fmap.
  rewrite lookup_seq_lt by assumption. reflexivity.
Qed.

Lemma elem_of_rows_of (cols : list IColumn) (n : nat) key :
  key ∈ rows_of cols n <-> exists i, (i < n)%nat /\ getKey cols i = key.
Proof.
  unfold rows_of. rewrite list_elem_of_fmap. split.
  - intros (i & -> & Hi). apply elem_of_seq in Hi. exists i. split; [lia|reflexivity].
  - intros (i & Hi & <-). exists i. split; [reflexivity|].
    apply elem_of_seq. lia.
Qed.

(** X1. The mask [buildFilter] fills has one flag per row, and the flag of
    row [i] is set exactly when the key of the row is neither in the table
    the pass started with nor the key of an earlier row of the block: the
    rows flagged are the first occurrences of the new keys. *)
Theorem buildFilter_flags_first_occurrences (table table' : list Key)
    (cols : ConstColumnPlainPtrs) (filt filt' : Filter) (rows_ : nat) :
  length filt = rows_ ->
  buildFilter table cols filt rows_ = (table', filt') ->
  length filt' = rows_ /\
  forall i, (i < rows_)%nat ->
    ((filt' !! i = Some true) <->
     (getKey cols i ∉ table) /\
     forall j, (j < i)%nat -> getKey cols j <> getKey cols i).
Proof.
  intros Hlen Hbuild. rewrite buildFilter_insert_keys in Hbuild by assumption.
  destruct (insert_keys_spec _ _ _ _ Hbuild) as (Hl & _).
  rewrite length_rows_of in Hl. split; [assumption|].
  intros i Hi.
  rewrite (insert_keys_flag _ _ _ _ i _ Hbuild (rows_of_lookup cols rows_ i Hi)).
  split; intros [Hn Hj]; (split; [assumption|]); intros j Hlt.
  - intros Heq. apply (Hj j Hlt).
    rewrite rows_of_lookup by lia. congruence.
  - rewrite rows_of_lookup by lia. intros [= Heq]. apply (Hj j Hlt). assumption.
Qed.

(** X2. [buildFilter] only adds to the table: the table it leaves starts
    with the table it was given, holds exactly the keys of that table and
    the keys of the rows of the block, has grown by the number of flags
    set, and holds no key twice when the table given held none twice. *)
Theorem buildFilter_grows_table (table table' : list Key)
    (cols : ConstColumnPlainPtrs) (filt filt' : Filter) (rows_ : nat) :
  length filt = rows_ ->
  buildFilter table cols filt rows_ = (table', filt') ->
  (table `prefix_of` table') /\
  (forall key,
      key ∈ table' <->
      key ∈ table \/ exists i, (i < rows_)%nat /\ getKey cols i = key) /\
  length table' = (length table + countBytesInFilter filt')%nat /\
  (NoDup table -> NoDup table').
Proof.
  intros Hlen Hbuild. rewrite buildFilter_insert_keys in Hbuild by assumption.
  destruct (insert_keys_spec _ _ _ _ Hbuild) as (Hl & Htab & Hnd).
  split; [rewrite Htab; apply prefix_app_r; reflexivity|].
  split; [|split; [|assumption]].
  - intros key. rewrite (insert_keys_all_in _ _ _ _ key Hbuild).
    rewrite elem_of_rows_of. reflexivity.
  - rewrite Htab, length_app, (length_select _ _ Hl). reflexivity.
Qed.

(** X3. A second pass of [buildFilter] over the same rows finds nothing
    new: it leaves the table of the first pass as it is and sets no
    flag. *)
Theorem buildFilter_second_pass (table table' : list Key)
    (cols : ConstColumnPlainPtrs) (filt filt' filt2 : Filter) (rows_ : nat) :
  length filt = rows_ -> length filt2 = rows_ ->
  buildFilter table cols filt rows_ = (table', filt') ->
  buildFilter table' cols filt2 rows_ = (table', repeat false rows_).
Proof.
  intros Hlen Hlen2 Hbuild.
  rewrite buildFilter_insert_keys in Hbuild |- * by assumption.
  rewrite insert_keys_seen, length_rows_of; [reflexivity|].
  intros key Hkey. apply (insert_keys_all_in _ _ _ _ key Hbuild). auto.
Qed.

(** ** [getKeyColumns] *)

Lemma getByName_present (block : Block) (n : string) :
  (exists elem, elem ∈ block /\ name elem = n) ->
  exists elem, getByName block n = Ok elem /\ elem ∈ block /\ name elem = n.
Proof.
  intros (elem & Hin & Hname). unfold getByName.
  destruct (List.find _ block) as [found|] eqn:Hfind.
  - exists found. apply find_some in Hfind as [Hf Hn].
    apply bool_decide_eq_true in Hn. apply list_elem_of_In in Hf. auto.
  - exfalso. apply list_elem_of_In in Hin.
    pose proof (find_none _ _ Hfind _ Hin) as Hnone. cbn beta in Hnone.
    apply bool_decide_eq_false in Hnone. contradiction.
Qed.

Lemma lookup_names_present (block : Block) (names : Names) :
  (forall n, n ∈ names -> exists elem, elem ∈ block /\ name elem = n) ->
  exists elems,
    lookup_names block names = Ok elems /\
    map name elems = names /\
    Forall (fun elem => elem ∈ block) elems.
Proof.
  induction names as [|n names IH]; intros Hall.
  - exists []. repeat split. constructor.
  - destruct (getByName_present block n) as (elem & Hget & Hin & Hname).
    { apply Hall. left. }
    destruct IH as (elems & Hl & Hnames & Hin').
    { intros m Hm. apply Hall. right. assumption. }
    exists (elem :: elems). simpl. rewrite Hget, Hl. simpl.
    repeat split; [congruence | constructor; assumption].
Qed.

Lemma lookup_names_length (block : Block) (names : Names) elems :
  lookup_names block names = Ok elems -> length elems = length names.
Proof.
  revert elems. induction names as [|n names IH]; simpl; intros elems Hl.
  - inversion Hl. reflexivity.
  - destruct (getByName block n); simpl in Hl; [|discriminate].
    destruct (lookup_names block names) as [es|]; simpl in Hl; [|discriminate].
    inversion Hl. simpl. f_equal. apply IH. reflexivity.
Qed.

Lemma filter_plain_spec (l : list IColumn) :
  Forall (fun c => isConst c = false) (List.filter plain l) /\
  (length (List.filter plain l) <= length l)%nat.
Proof.
  induction l as [|c l [IHp IHl]]; [split; [constructor | reflexivity]|].
  rewrite filter_plain_cons. destruct (isConst c) eqn:Hc; simpl.
  - split; [assumption | lia].
  - split; [constructor; assumption | lia].
Qed.

(** X4. Without configured names [getKeyColumns] never throws: it gives
    the columns of the block that are not constant, in position order. *)
Theorem getKeyColumns_without_names self (block : Block) :
  columns_names self = [] ->
  getKeyColumns self block
  = Ok (List.filter (fun c => negb (isConst c)) (map column block)).
Proof. apply getKeyColumns_positional. Qed.

(** X5. With configured names that all name a column of the block,
    [getKeyColumns] gives, in the configured order and as often as a name
    is configured, the named columns that are not constant. *)
Theorem getKeyColumns_with_names self (block : Block) :
  columns_names self <> [] ->
  (forall n, n ∈ columns_names self ->
             exists elem, elem ∈ block /\ name elem = n) ->
  exists elems,
    map name elems = columns_names self /\
    Forall (fun elem => elem ∈ block) elems /\
    getKeyColumns self block
    = Ok (List.filter (fun c => negb (isConst c)) (map column elems)).
Proof.
  intros Hnames Hall.
  destruct (lookup_names_present block _ Hall) as (elems & Hl & Hn & Hin).
  exists elems. split; [assumption|]. split; [assumption|].
  rewrite getKeyColumns_named by assumption. rewrite Hl. reflexivity.
Qed.

(** X6. What [getKeyColumns] returns: columns of the block, none of them
    constant, and no more of them than there are candidates -- the columns
    of the block without configured names, the configured names
    otherwise. *)
Theorem getKeyColumns_returns_plain_columns self (block : Block) cols :
  getKeyColumns self block = Ok cols ->
  Forall (fun c => isConst c = false /\ c ∈ map column block) cols /\
  (length cols
   <= if bool_decide (columns_names self = [])
      then columns block else length (columns_names self))%nat.
Proof.
  intros Hget. pose proof (getKeyColumns_elem_of _ _ _ Hget) as Hin.
  assert (Hplain : Forall (fun c => isConst c = false) cols /\
                   (length cols
                    <= if bool_decide (columns_names self = [])
                       then columns block else length (columns_names self))%nat).
  { case_bool_decide as Hn.
    - rewrite getKeyColumns_positional in Hget by assumption.
      injection Hget as <-.
      destruct (filter_plain_spec (map column block)) as [Hp Hl].
      rewrite length_map in Hl. auto.
    - rewrite getKeyColumns_named in Hget by assumption.
      destruct (lookup_names block (columns_names self)) as [elems|] eqn:Hl;
        simpl in Hget; [|discriminate].
      injection Hget as <-.
      destruct (filter_plain_spec (map column elems)) as [Hp Hlen].
      rewrite length_map, (lookup_names_length _ _ _ Hl) in Hlen. auto. }
  destruct Hplain as [Hp Hl]. split; [|assumption].
  apply Forall_and. auto.
Qed.

(** ** What every run keeps *)

Lemma turn_grows self (block : Block) :
  settings (turn_state (readImpl_turn self block)) = settings self /\
  exists added,
    stored (data (turn_state (readImpl_turn self block)))
    = stored (data self) ++ added /\
    (NoDup (stored (data self)) ->
     NoDup (stored (data (turn_state (readImpl_turn self block))))).
Proof.
  assert (Hsame : forall r,
    settings (turn_state (Return r self)) = settings self /\
    exists added,
      stored (data (turn_state (Return r self))) = stored (data self) ++ added /\
      (NoDup (stored (data self)) ->
       NoDup (stored (data (turn_state (Return r self)))))).
  { intros r. split; [reflexivity|]. exists []. rewrite app_nil_r. auto. }
  assert (Hpassed : forall cols d2 filt t,
    pass self block cols = (d2, filt) -> turn_state t = set_data self d2 ->
    settings (turn_state t) = settings self /\
    exists added,
      stored (data (turn_state t)) = stored (data self) ++ added /\
      (NoDup (stored (data self)) -> NoDup (stored (data (turn_state t))))).
  { intros cols d2 filt t Hpass ->.
    destruct (pass_spec _ _ _ _ _ Hpass) as (_ & Hst & Hnd & _).
    split; [reflexivity|]. eexists. split; [exact Hst | exact Hnd]. }
  destruct (readImpl_turn_outcome self block); eauto.
Qed.

Lemma readImpl_loop_grows self up :
  settings (readImpl_loop self up).2 = settings self /\
  exists added,
    stored (data (readImpl_loop self up).2) = stored (data self) ++ added /\
    (NoDup (stored (data self)) -> NoDup (stored (data (readImpl_loop self up).2))).
Proof.
  revert self up. apply (readImpl_loop_turns
    (fun self up res =>
       settings res.2 = settings self /\
       exists added,
         stored (data res.2) = stored (data self) ++ added /\
         (NoDup (stored (data self)) -> NoDup (stored (data res.2))))).
  - intros self up _. split; [reflexivity|]. exists []. rewrite app_nil_r. auto.
  - intros self _. split; [reflexivity|]. exists []. rewrite app_nil_r. auto.
  - intros self block rest r self' _ Ht.
    pose proof (turn_grows self block) as Hg. rewrite Ht in Hg. exact Hg.
  - intros self block rest self' _ Ht (Hs & added & Hst & Hnd).
    pose proof (turn_grows self block) as Hg. rewrite Ht in Hg.
    cbn [turn_state] in Hg. destruct Hg as (Hs0 & added0 & Hst0 & Hnd0).
    split; [congruence|]. exists (added0 ++ added).
    split; [rewrite Hst, Hst0, app_assoc; reflexivity | auto].
Qed.

(** X9. What every run of pulls keeps: the settings are never written;
    the set only grows -- the keys it held stay, in their places -- and
    holds no key twice if it held none twice; and the source loses blocks
    at its front only. *)
Theorem read_n_keeps_invariants (n : nat) self :
  columns_names (read_n n self).2 = columns_names self /\
  limit_hint (read_n n self).2 = limit_hint self /\
  max_rows (read_n n self).2 = max_rows self /\
  max_bytes (read_n n self).2 = max_bytes self /\
  overflow_mode (read_n n self).2 = overflow_mode self /\
  (stored (data self) `prefix_of` stored (data (read_n n self).2)) /\
  (NoDup (stored (data self)) -> NoDup (stored (data (read_n n self).2))) /\
  (children (read_n n self).2 `suffix_of` children self).
Proof.
  assert (Hinv : settings (read_n n self).2 = settings self /\
                 (stored (data self) `prefix_of` stored (data (read_n n self).2)) /\
                 (NoDup (stored (data self)) ->
                  NoDup (stored (data (read_n n self).2))) /\
                 (children (read_n n self).2 `suffix_of` children self)).
  { revert self. induction n as [|n IH]; intros self.
    - simpl. repeat split; auto.
    - rewrite read_n_S. cbn [snd].
      destruct (readImpl_loop_grows self (children self))
        as (Hs & added & Hst & Hnd).
      destruct (readImpl_loop_children self (children self)) as [consumed Hc].
      fold (readImpl self) in *.
      destruct (IH (readImpl self).2) as (Hs' & Hpre & Hnd' & Hsuf).
      split; [congruence|]. split; [|split; [auto|]].
      + etransitivity; [|exact Hpre]. rewrite Hst. apply prefix_app_r. reflexivity.
      + etransitivity; [exact Hsuf|]. exists consumed. exact Hc. }
  destruct Hinv as (Hs & Hpre & Hnd & Hsuf).
  apply settings_inv in Hs as (? & ? & ? & ? & ?). auto 10.
Qed.

(** ** The end of the stream *)

Lemma readImpl_finished self :
  finished self -> readImpl self = (Ok Block_empty, self).
Proof.
  unfold readImpl. intros [Hh|Hc].
  - rewrite readImpl_loop_hint by assumption.
    rewrite set_children_children. reflexivity.
  - rewrite Hc, readImpl_loop_nil, <- Hc, set_children_children. reflexivity.
Qed.

Lemma read_n_finished (n : nat) self :
  finished self -> read_n n self = (repeat (Ok Block_empty) n, self).
Proof.
  intros Hf. induction n as [|n IH]; [reflexivity|].
  simpl. rewrite (readImpl_finished _ Hf), IH. reflexivity.
Qed.

Lemma readImpl_loop_progress self up :
  limit_hint_reached self = false -> up <> [] ->
  (length (children (readImpl_loop self up).2) < length up)%nat.
Proof.
  intros Hh Hne. destruct up as [|block rest]; [congruence|].
  destruct (readImpl_turn self block) as [self'|r self'] eqn:Ht.
  - rewrite (readImpl_loop_continue _ _ _ _ Hh Ht).
    destruct (readImpl_loop_children self' rest) as [consumed Hc].
    apply (f_equal length) in Hc. rewrite length_app in Hc. simpl. lia.
  - rewrite (readImpl_loop_return _ _ _ _ _ Hh Ht). simpl. lia.
Qed.

Lemma finished_dec self : finished self \/
  (limit_hint_reached self = false /\ children self <> []).
Proof.
  unfold finished. destruct (limit_hint_reached self); [auto|].
  destruct (children self); [auto|]. right. split; [reflexivity | discriminate].
Qed.

Lemma read_n_finishes (n : nat) self :
  (length (children self) <= n)%nat -> finished (read_n n self).2.
Proof.
  revert self. induction n as [|n IH]; intros self Hlen.
  - simpl. right. destruct (children self); [reflexivity | simpl in Hlen; lia].
  - destruct (finished_dec self) as [Hf|[Hh Hne]].
    + rewrite (read_n_finished _ _ Hf). exact Hf.
    + rewrite read_n_S. cbn [snd]. apply IH.
      pose proof (readImpl_loop_progress self (children self) Hh Hne) as Hp.
      fold (readImpl self) in Hp. lia.
Qed.

(** X8. The stream ends: after as many pulls as the source has blocks to
    deliver, every further pull signals end-of-data and leaves the stream
    as it is. *)
Theorem stream_ends (n m : nat) self :
  (length (children self) <= n)%nat ->
  read_n m (read_n n self).2 = (repeat (Ok Block_empty) m, (read_n n self).2).
Proof.
  intros Hlen. apply read_n_finished, read_n_finishes. assumption.
Qed.

(** ** Violated limits *)

Lemma run_buildFilter_holds_rows (d d2 : SetVariants)
    (cols : ConstColumnPlainPtrs) (n : nat) (filt : Filter) key :
  run_buildFilter d cols n = (d2, filt) ->
  stored d2 <> stored d ->
  key ∈ rows_of cols n -> key ∈ stored d2.
Proof.
  unfold run_buildFilter. intros Hrun Hne Hkey.
  destruct (type d) eqn:Ht.
  1: { inversion Hrun; subst. congruence. }
  all: rewrite buildFilter_insert_keys in Hrun by apply repeat_length;
    destruct (insert_keys (table d) (rows_of cols n)) as [t f] eqn:Hins;
    inversion Hrun; subst; unfold stored; simpl;
    apply (insert_keys_all_in _ _ _ _ key Hins); auto.
Qed.

(** X11. What a violated limit leads to: when the pass over a pulled block
    finds new keys and leaves a limit -- on rows or on bytes -- violated,
    the pull throws the limit exception in mode [THROW], signals
    end-of-data in mode [BREAK] and throws a logical error in any other
    mode; in every mode the keys of all rows of the block are then in the
    set. *)
Theorem limit_violation_outcome self at_ (block : Block) rest cols d2 filt :
  pulls_block self (children self) at_ block rest ->
  block <> [] -> getKeyColumns self block = Ok cols -> cols <> [] ->
  pass at_ block cols = (d2, filt) ->
  getTotalRowCount d2 <> getTotalRowCount (data at_) ->
  checkLimits (set_data at_ d2) = false ->
  readImpl self
  = (match overflow_mode self with
     | THROW => Throw (mkException (limit_message (set_data at_ d2))
                                   SET_SIZE_LIMIT_EXCEEDED)
     | BREAK => Ok Block_empty
     | ANY => Throw (mkException "Logical error: unknown overflow mode"
                                 LOGICAL_ERROR)
     end,
     set_children (set_data at_ d2) rest) /\
  forall i, (i < rows block)%nat -> getKey cols i ∈ stored d2.
Proof.
  intros Hp Hne Hget Hcols Hpass Hcount Hlim.
  destruct (pulls_block_stored _ _ _ _ _ Hp) as [Hs Hd].
  pose proof (settings_inv _ _ Hs) as (_ & _ & _ & _ & Hm).
  rewrite <- (getKeyColumns_settings _ _ _ Hs) in Hget.
  destruct (pass_spec _ _ _ _ _ Hpass) as (_ & Hst & _).
  split.
  - unfold readImpl. eapply pulls_block_return; [eassumption|].
    pose proof (readImpl_turn_outcome at_ block) as Hout.
    inversion Hout as [Hnil|e Hne' Hget'|Hne' Hget'
                      |cols' d2' filt' Hne' Hget' Hcols' Hpass' Hsel'
                      |cols' d2' filt' Hne' Hget' Hcols' Hpass' Hsel' Hlim'
                      |cols' d2' filt' Hne' Hget' Hcols' Hpass' Hsel' Hlim'];
      try congruence;
      rewrite Hget in Hget'; inversion Hget'; subst cols';
      rewrite Hpass in Hpass'; inversion Hpass'; subst d2' filt'.
    + exfalso. apply Hcount. unfold getTotalRowCount.
      rewrite Hst, Hsel', app_nil_r. reflexivity.
    + unfold on_overflow. cbn [overflow_mode set_data]. rewrite Hm.
      destruct (overflow_mode self); reflexivity.
  - intros i Hi. unfold pass in Hpass.
    eapply run_buildFilter_holds_rows; [exact Hpass | |].
    + rewrite stored_init_if_empty. intros Heq. apply Hcount.
      unfold getTotalRowCount. rewrite Heq. reflexivity.
    + apply elem_of_rows_of. eauto.
Qed.

Lemma readImpl_loop_violated self up :
  checkLimits self = false ->
  checkLimits (readImpl_loop self up).2 = false /\
  not_compacted self (readImpl_loop self up).1.
Proof.
  revert self up. apply (readImpl_loop_turns
    (fun self up res =>
       checkLimits self = false ->
       checkLimits res.2 = false /\ not_compacted self res.1)).
  - intros self up _ Hlim. split; [assumption | apply has_key_columns_nil].
  - intros self _ Hlim. split; [assumption | apply has_key_columns_nil].
  - intros self block rest r self' _ Ht Hlim. cbn [fst snd].
    change (checkLimits (set_children self' rest)) with (checkLimits self').
    pose proof (readImpl_turn_outcome self block) as Hout. rewrite Ht in Hout.
    inversion Hout as [Hnil|e Hne Hget|Hne Hget|
                      |cols d2 filt Hne Hget Hcols Hpass Hsel Hlim'
                      |cols d2 filt Hne Hget Hcols Hpass Hsel Hlim']; subst.
    + split; [assumption | apply has_key_columns_nil].
    + split; [assumption | exact I].
    + split; [assumption|]. simpl. unfold has_key_columns. rewrite Hget.
      reflexivity.
    + split; [assumption|]. unfold on_overflow.
      destruct (overflow_mode _); simpl; auto using has_key_columns_nil.
    + exfalso. destruct (pass_spec _ _ _ _ _ Hpass) as (_ & Hst & _).
      assert (checkLimits (set_data self d2) = false); [|congruence].
      eapply (checkLimits_grow self); [reflexivity | exact Hst | assumption].
  - intros self block rest self' _ Ht IH Hlim.
    apply turn_continue_stored in Ht as [Hs Hd].
    destruct IH as [Hl Hnc].
    + rewrite (checkLimits_stored _ _ Hs Hd). assumption.
    + split; [assumption|]. unfold not_compacted in *.
      destruct (readImpl_loop self' rest).1; [|exact I].
      rewrite <- (has_key_columns_settings _ _ _ Hs). assumption.
Qed.

(** X10. Once a limit is violated, in whatever mode, no pull hands out a
    compacted block any more: every later result is an exception, the
    end-of-data signal or a block without key column, and the limit stays
    violated. *)
Theorem no_compacted_block_after_violation (n : nat) self :
  checkLimits self = false ->
  checkLimits (read_n n self).2 = false /\
  Forall (not_compacted self) (read_n n self).1.
Proof.
  revert self. induction n as [|n IH]; intros self Hlim.
  - split; [assumption | constructor].
  - rewrite read_n_S. cbn [fst snd].
    destruct (readImpl_loop_violated self (children self) Hlim) as [Hl Hnc].
    destruct (readImpl_loop_grows self (children self)) as (Hs & _).
    fold (readImpl self) in *.
    destruct (IH _ Hl) as [Hl' Hall].
    split; [assumption|]. constructor; [assumption|].
    eapply Forall_impl; [exact Hall|]. intros [b|e]; simpl; [|auto].
    rewrite (has_key_columns_settings _ _ _ Hs). auto.
Qed.

(** ** Without limits *)

Lemma insert_keys_first_occurrences (keys table table' : list Key)
    (filt : Filter) :
  insert_keys table keys = (table', filt) ->
  select filt keys = first_occurrences table keys.
Proof.
  revert table table' filt.
  induction keys as [|k keys IH]; intros table table' filt Hins; simpl in Hins.
  - inversion Hins. reflexivity.
  - unfold emplace in Hins. simpl.
    destruct (decide (k ∈ table)) as [Hk|Hk];
      destruct (insert_keys _ keys) as [t f] eqn:Hrec; inversion Hins; subst;
      simpl; rewrite (IH _ _ _ Hrec); reflexivity.
Qed.

Lemma first_occurrences_app (seen l1 l2 : list Key) :
  first_occurrences seen (l1 ++ l2)
  = first_occurrences seen l1
    ++ first_occurrences (seen ++ first_occurrences seen l1) l2.
Proof.
  revert seen. induction l1 as [|k l1 IH]; intros seen; simpl.
  - rewrite app_nil_r. reflexivity.
  - destruct (decide (k ∈ seen)); [apply IH|].
    simpl. rewrite IH, <- app_assoc. reflexivity.
Qed.

Lemma pass_first_occurrences self (block : Block) cols d2 filt :
  (forall cols, chooseMethod cols <> EMPTY) ->
  pass self block cols = (d2, filt) ->
  select filt (rows_of cols (rows block))
  = first_occurrences (stored (data self)) (rows_of cols (rows block)).
Proof.
  intros Hchoose Hpass. unfold pass in Hpass.
  rewrite <- (stored_init_if_empty (data self) cols).
  assert (Ht : type (init_if_empty (data self) cols) <> EMPTY).
  { unfold init_if_empty, empty. case_bool_decide; [apply Hchoose | assumption]. }
  revert Hpass Ht. generalize (init_if_empty (data self) cols). intros d Hrun Ht.
  unfold run_buildFilter in Hrun. unfold stored.
  destruct (type d) eqn:Htype; [congruence| ..].
  all: rewrite buildFilter_insert_keys in Hrun by apply repeat_length;
    destruct (insert_keys (table d) (rows_of cols (rows block))) as [t f] eqn:Hins;
    inversion Hrun; subst;
    eapply insert_keys_first_occurrences; eassumption.
Qed.

Lemma unlimited_checkLimits self :
  max_rows self = 0 -> max_bytes self = 0 -> checkLimits self = true.
Proof. intros Hr Hb. apply checkLimits_true. auto. Qed.

Lemma unlimited_hint self :
  limit_hint self = 0 -> limit_hint_reached self = false.
Proof.
  intros Hh. destruct (limit_hint_reached self) eqn:Hr; [|reflexivity].
  apply limit_hint_reached_true in Hr as [Hnz _]. contradiction.
Qed.

Lemma readImpl_loop_unlimited self up :
  (forall cols, chooseMethod cols <> EMPTY) ->
  limit_hint self = 0 -> max_rows self = 0 -> max_bytes self = 0 ->
  Forall wf_block up ->
  Forall (fun b => has_key_columns self b = true) up ->
  exists consumed,
    up = consumed ++ children (readImpl_loop self up).2 /\
    (up <> [] -> consumed <> []) /\
    stored (data (readImpl_loop self up).2)
    = stored (data self)
      ++ first_occurrences (stored (data self))
           (concat (map (key_rows self) consumed)) /\
    emitted_keys self [(readImpl_loop self up).1]
    = first_occurrences (stored (data self))
        (concat (map (key_rows self) consumed)).
Proof.
  intros Hchoose. revert self up. apply (readImpl_loop_turns
    (fun self up res =>
       limit_hint self = 0 -> max_rows self = 0 -> max_bytes self = 0 ->
       Forall wf_block up ->
       Forall (fun b => has_key_columns self b = true) up ->
       exists consumed,
         up = consumed ++ children res.2 /\
         (up <> [] -> consumed <> []) /\
         stored (data res.2)
         = stored (data self)
           ++ first_occurrences (stored (data self))
                (concat (map (key_rows self) consumed)) /\
         emitted_keys self [res.1]
         = first_occurrences (stored (data self))
             (concat (map (key_rows self) consumed)))).
  - intros self up Hreached Hh. rewrite (unlimited_hint _ Hh) in Hreached.
    discriminate.
  - intros self _ _ _ _ _ _. exists []. simpl. rewrite app_nil_r.
    repeat split; congruence.
  - intros self block rest r self' _ Ht Hh Hr Hb Hwf Hkeys. cbn [fst snd].
    apply Forall_cons in Hwf as [Hwf _]. apply Forall_cons in Hkeys as [Hkey _].
    exists [block]. cbn [map concat]. rewrite app_nil_r.
    split; [reflexivity|]. split; [discriminate|].
    pose proof (readImpl_turn_outcome self block) as Hout. rewrite Ht in Hout.
    inversion Hout as [Hnil|e Hne Hget|Hne Hget|
                      |cols d2 filt Hne Hget Hcols Hpass Hsel Hlim
                      |cols d2 filt Hne Hget Hcols Hpass Hsel Hlim]; subst.
    + rewrite has_key_columns_nil in Hkey. discriminate.
    + unfold has_key_columns in Hkey. rewrite Hget in Hkey. discriminate.
    + unfold has_key_columns in Hkey. rewrite Hget in Hkey. discriminate.
    + rewrite unlimited_checkLimits in Hlim by assumption. discriminate.
    + destruct (pass_spec _ _ _ _ _ Hpass) as (Hlen & Hst & _).
      rewrite (emitted_keys_filter_block _ _ _ _ Hne Hwf Hlen Hget Hcols).
      unfold key_rows. rewrite Hget. cbn [set_children set_data data].
      rewrite Hst, (pass_first_occurrences _ _ _ _ _ Hchoose Hpass). auto.
  - intros self block rest self' _ Ht IH Hh Hr Hb Hwf Hkeys.
    apply Forall_cons in Hwf as [_ Hwf]. apply Forall_cons in Hkeys as [_ Hkeys].
    pose proof (readImpl_turn_outcome self block) as Hout. rewrite Ht in Hout.
    inversion Hout as [| | |cols d2 filt Hne Hget Hcols Hpass Hsel| |]; subst.
    destruct (pass_spec _ _ _ _ _ Hpass) as (_ & Hst & _).
    rewrite Hsel, app_nil_r in Hst.
    rewrite (pass_first_occurrences _ _ _ _ _ Hchoose Hpass) in Hsel.
    destruct IH as (consumed & Hc & _ & Hstored & Hemit); try assumption.
    exists (block :: consumed).
    split; [simpl; rewrite <- Hc; reflexivity|]. split; [discriminate|].
    cbn [map concat]. unfold key_rows at 1 3. rewrite Hget.
    rewrite first_occurrences_app, Hsel, app_nil_r. cbn [app].
    cbn [set_data data] in Hstored, Hemit. rewrite Hst in Hstored, Hemit.
    split; [exact Hstored | exact Hemit].
Qed.

(** X7. Without limits and without hint nothing is lost: when every block
    of the source has a key column, the keys of the rows handed out over
    the pulls that drain the source are the keys of the rows of the source
    that the set did not hold, each once, at its first occurrence and in
    the order of the source; and the set ends up holding them. *)
Theorem unlimited_stream_emits_first_occurrences (n : nat) self :
  (forall cols, chooseMethod cols <> EMPTY) ->
  limit_hint self = 0 -> max_rows self = 0 -> max_bytes self = 0 ->
  Forall wf_block (children self) ->
  Forall (fun b => has_key_columns self b = true) (children self) ->
  (length (children self) <= n)%nat ->
  emitted_keys self (read_n n self).1
  = first_occurrences (stored (data self))
      (concat (map (key_rows self) (children self))) /\
  stored (data (read_n n self).2)
  = stored (data self)
    ++ first_occurrences (stored (data self))
         (concat (map (key_rows self) (children self))).
Proof.
  intros Hchoose. revert self.
  induction n as [|n IH]; intros self Hh Hr Hb Hwf Hkeys Hlen.
  - destruct (children self); [|simpl in Hlen; lia].
    simpl. rewrite app_nil_r. auto.
  - rewrite read_n_S. cbn [fst snd].
    destruct (readImpl_loop_unlimited self (children self) Hchoose Hh Hr Hb
                Hwf Hkeys) as (consumed & Hc & Hne & Hst & Hemit).
    destruct (readImpl_loop_grows self (children self)) as (Hs & _).
    fold (readImpl self) in *.
    pose proof (settings_inv _ _ Hs) as (_ & Hh' & Hr' & Hb' & _).
    assert (Hwf' : Forall wf_block (children (readImpl self).2)).
    { rewrite Hc in Hwf. apply Forall_app in Hwf as [_ Hwf]. exact Hwf. }
    assert (Hkeys' : Forall (fun b => has_key_columns (readImpl self).2 b = true)
                       (children (readImpl self).2)).
    { rewrite Hc in Hkeys. apply Forall_app in Hkeys as [_ Hkeys].
      eapply Forall_impl; [exact Hkeys|]. cbn beta. intros b Hb0.
      rewrite (has_key_columns_settings _ _ _ Hs). assumption. }
    assert (Hlen' : (length (children (readImpl self).2) <= n)%nat).
    { destruct (decide (children self = [])) as [He|He].
      - rewrite He in Hc. symmetry in Hc. apply app_eq_nil in Hc as [_ ->].
        simpl. lia.
      - specialize (Hne He). apply (f_equal length) in Hc.
        rewrite length_app in Hc. destruct consumed; [congruence|].
        simpl in Hc. lia. }
    destruct (IH (readImpl self).2) as [Hemit' Hst']; try congruence.
    rewrite (emitted_keys_settings _ _ _ Hs) in Hemit'.
    assert (Hrows : map (key_rows (readImpl self).2) (children (readImpl self).2)
                    = map (key_rows self) (children (readImpl self).2)).
    { apply map_ext. intros b. apply key_rows_settings. assumption. }
    rewrite Hrows in Hemit', Hst'.
    assert (HK : concat (map (key_rows self) (children self))
                 = concat (map (key_rows self) consumed)
                   ++ concat (map (key_rows self) (children (readImpl self).2))).
    { rewrite <- concat_app, <- map_app, <- Hc. reflexivity. }
    rewrite emitted_keys_cons, Hemit, Hemit', Hst', Hst, HK.
    rewrite first_occurrences_app, <- app_assoc. auto.
Qed.

End DistinctMore.

(** * Further properties of the read buffer over a file *)

Section ReadBufferFromFileMore.

Context `{platform : Platform}.

Local Open Scope Z_scope.

Lemma o_direct_true (flags : Z) :
  o_direct flags = true <->
  APPLE = true /\ flags <> -1 /\ Z.land flags O_DIRECT <> 0.
Proof.
  unfold o_direct.
  destruct APPLE; destruct (Z.eqb_spec flags (-1));
    destruct (Z.eqb_spec (Z.land flags O_DIRECT) 0); simpl;
    split; try discriminate; try tauto; intros (? & ? & ?);
    try reflexivity; congruence.
Qed.

Lemma land_lnot_not_m1 (flags mask : Z) :
  Z.land flags mask <> 0 -> Z.land flags (Z.lnot mask) <> -1.
Proof.
  intros Hbits Hall. apply Hbits.
  assert (Hmask : Z.land (Z.land flags (Z.lnot mask)) mask = 0).
  { rewrite <- Z.land_assoc, (Z.land_comm (Z.lnot mask)), Z.land_lnot_diag.
    apply Z.land_0_r. }
  rewrite Hall, Z.land_m1_l in Hmask. subst mask. apply Z.land_0_r.
Qed.

(** X13. The flags [open] is called with.  When [O_DIRECT] is asked for
    under [__APPLE__], it is taken out and nothing else is touched: no bit
    of [O_DIRECT] is left and every other bit is the bit of the flags
    given.  Otherwise the flags are passed as they are, -1 standing for
    [O_RDONLY]. *)
Theorem open_flags_strips_O_DIRECT (flags : Z) :
  (o_direct flags = true ->
   Z.land (open_flags flags) O_DIRECT = 0 /\
   forall i, 0 <= i -> Z.testbit O_DIRECT i = false ->
             Z.testbit (open_flags flags) i = Z.testbit flags i) /\
  (o_direct flags = false ->
   open_flags flags = if flags =? -1 then O_RDONLY else flags).
Proof.
  unfold open_flags. split; intros Hd; rewrite Hd; [|reflexivity].
  apply o_direct_true in Hd as (_ & _ & Hbits).
  destruct (Z.eqb_spec (Z.land flags (Z.lnot O_DIRECT)) (-1)) as [Hall|_].
  { exfalso. eapply land_lnot_not_m1; eassumption. }
  split.
  - rewrite <- Z.land_assoc, (Z.land_comm (Z.lnot O_DIRECT)), Z.land_lnot_diag.
    apply Z.land_0_r.
  - intros i Hi Hbit. rewrite Z.land_spec, Z.lnot_spec, Hbit by assumption.
    apply andb_true_r.
Qed.

(** X12. All the ways opening by name can go.  It gives a buffer exactly
    when [open] returns a descriptor and, where [O_DIRECT] was asked for
    under [__APPLE__], [fcntl] does not fail; the buffer then holds that
    descriptor and the name.  It fails with [CANNOT_OPEN_FILE] exactly when
    [open] fails with another [errno] than [ENOENT], or [open] returns a
    descriptor and that [fcntl] fails.  It throws no other code than
    [FILE_DOESNT_EXIST] and [CANNOT_OPEN_FILE]. *)
Theorem open_outcomes (file_name_ : string) (flags : Z) :
  (forall buf,
      ReadBufferFromFile_open file_name_ flags = Ok buf <->
      (sys_open file_name_ (open_flags flags)).1 <> -1 /\
      (o_direct flags = false \/
       sys_fcntl (sys_open file_name_ (open_flags flags)).1 F_NOCACHE 1 <> -1) /\
      buf = mkReadBuffer (sys_open file_name_ (open_flags flags)).1 file_name_) /\
  (throws (ReadBufferFromFile_open file_name_ flags) CANNOT_OPEN_FILE <->
   ((sys_open file_name_ (open_flags flags)).1 = -1 /\
    (sys_open file_name_ (open_flags flags)).2 <> ENOENT) \/
   ((sys_open file_name_ (open_flags flags)).1 <> -1 /\
    o_direct flags = true /\
    sys_fcntl (sys_open file_name_ (open_flags flags)).1 F_NOCACHE 1 = -1)) /\
  (forall e,
      ReadBufferFromFile_open file_name_ flags = Throw e ->
      code e = FILE_DOESNT_EXIST \/ code e = CANNOT_OPEN_FILE).
Proof.
  unfold throws, ReadBufferFromFile_open, throwFromErrno.
  destruct (sys_open file_name_ (open_flags flags)) as [fd_ errno].
  cbn [fst snd].
  destruct (Z.eqb_spec fd_ (-1)) as [Hfd|Hfd].
  - split; [|split].
    + intros buf. split; [discriminate | tauto].
    + destruct (Z.eqb_spec errno ENOENT) as [He|He].
      * split; [|tauto]. intros (e & [= <-] & Hc). discriminate Hc.
      * split; [auto|]. intros _. eexists. split; reflexivity.
    + intros e [= <-]. destruct (errno =? ENOENT); simpl; auto.
  - destruct (o_direct flags) eqn:Hd; cbn [andb].
    + destruct (Z.eqb_spec (sys_fcntl fd_ F_NOCACHE 1) (-1)) as [Hf|Hf].
      * split; [|split].
        -- intros buf. split; [discriminate|].
           intros (_ & [?|?] & _); congruence.
        -- split; [auto|]. intros _. eexists. split; reflexivity.
        -- intros e [= <-]. auto.
      * split; [|split].
        -- intros buf. split; [intros [= <-]; auto | intros (_ & _ & ->); reflexivity].
        -- split; [intros (e & He & _); discriminate He|].
           intros [[? _]|(_ & _ & ?)]; congruence.
        -- discriminate.
    + split; [|split].
      * intros buf. split; [intros [= <-]; auto | intros (_ & _ & ->); reflexivity].
      * split; [intros (e & He & _); discriminate He|].
        intros [[? _]|(_ & ? & _)]; congruence.
      * discriminate.
Qed.

(** X14. A descriptor is not closed twice: the buffer [close] leaves has
    no descriptor, so that its destructor calls [::close] on nothing,
    while the destructor of a buffer that still holds a descriptor -- as a
    buffer just opened by name does -- calls [::close] on that descriptor,
    once. *)
Theorem descriptor_closed_once (file_name_ : string) (flags : Z)
    (buf buf' : ReadBufferFromFile) :
  ReadBufferFromFile_open file_name_ flags = Ok buf ->
  0 <= (sys_open file_name_ (open_flags flags)).1 ->
  close buf = Ok buf' ->
  destructor_closes buf = [(sys_open file_name_ (open_flags flags)).1] /\
  destructor_closes buf' = [] /\
  file_name buf' = file_name_.
Proof.
  intros Hopen Hfd Hclose.
  unfold ReadBufferFromFile_open, throwFromErrno in Hopen.
  destruct (sys_open file_name_ (open_flags flags)) as [fd_ errno].
  cbn [fst snd] in *.
  destruct (fd_ =? -1); [discriminate|].
  destruct (o_direct flags && _); [discriminate|].
  injection Hopen as <-.
  unfold close in Hclose. cbn [fd file_name] in Hclose.
  destruct (negb _); [discriminate|]. injection Hclose as <-.
  unfold destructor_closes. cbn [fd file_name].
  destruct (Z.ltb_spec fd_ 0); [lia|]. auto.
Qed.

End ReadBufferFromFileMore.

(** ** Names made of numbers *)

Lemma append_cons (a : Ascii.ascii) (s t : string) :
  String a s +:+ t = String a (s +:+ t).
Proof. reflexivity. Qed.

Lemma append_inj_l (s t1 t2 : string) : s +:+ t1 = s +:+ t2 -> t1 = t2.
Proof.
  induction s as [|a s IH]; [auto|].
  rewrite !append_cons. intros [= H]. auto.
Qed.

Lemma append_length (s t : string) :
  String.length (s +:+ t) = (String.length s + String.length t)%nat.
Proof.
  induction s as [|a s IH]; [reflexivity|].
  rewrite append_cons. simpl. rewrite IH. reflexivity.
Qed.

Lemma append_inj_r (s1 s2 t : string) : s1 +:+ t = s2 +:+ t -> s1 = s2.
Proof.
  revert s2. induction s1 as [|a s1 IH]; intros [|b s2] Heq.
  - reflexivity.
  - apply (f_equal String.length) in Heq.
    rewrite !append_length in Heq. simpl in Heq. lia.
  - apply (f_equal String.length) in Heq.
    rewrite !append_length in Heq. simpl in Heq. lia.
  - rewrite !append_cons in Heq. injection Heq as -> Heq. f_equal. auto.
Qed.

Lemma string_of_int_to_int_inj (z1 z2 : Z) :
  NilZero.string_of_int (Z.to_int z1) = NilZero.string_of_int (Z.to_int z2) ->
  z1 = z2.
Proof.
  intros Heq. apply DecimalZ.to_int_inj.
  assert (Hisi : forall z, NilZero.int_of_string (NilZero.string_of_int (Z.to_int z))
                           = Some (Z.to_int z)).
  { intros z. apply NilZero.isi; destruct z; simpl; try discriminate;
      intros [= H]; revert H; apply DecimalPos.Unsigned.to_uint_nonnil. }
  pose proof (Hisi z1) as H1. rewrite Heq, Hisi in H1. congruence.
Qed.

(** X15. The name given to a buffer over an open descriptor tells the
    descriptor: buffers over different descriptors have different names. *)
Theorem of_fd_name_tells_descriptor (fd1 fd2 : Z) :
  file_name (ReadBufferFromFile_of_fd fd1)
  = file_name (ReadBufferFromFile_of_fd fd2) ->
  fd1 = fd2.
Proof.
  unfold ReadBufferFromFile_of_fd. cbn [file_name]. intros Heq.
  apply append_inj_l, append_inj_r in Heq.
  apply string_of_int_to_int_inj. assumption.
Qed.

(** X16. The identifier of the stream tells the identifier of its source:
    streams over sources of different identifiers have different
    identifiers. *)
Theorem getID_tells_source (id1 id2 : string) :
  getID id1 = getID id2 -> id1 = id2.
Proof.
  unfold getID. intros Heq. apply append_inj_l, append_inj_r in Heq. assumption.
Qed.

(** * Runs on the concrete blocks *)

#[local] Existing Instance example_methods.
#[local] Existing Instance example_platform.

(** The scenario of the specification: the rows come out in order, the
    second [(1, x)] does not. *)
Example scenario :
  returned_rows (read_n 3 (unlimited [block1; block2])).1
  = [ [FUInt64 1; FString "x"]; [FUInt64 1; FString "y"];
      [FUInt64 2; FString "x"]; [FUInt64 3; FString "z"] ].
Proof. vm_compute. reflexivity. Qed.

(** C1, as stated, fails: a block whose key columns are all constant is
    handed out with its two equal rows. *)
Lemma uniqueness_fails_without_key_columns :
  (read_n 1 (unlimited [block_const])).1 = [Ok block_const] /\
  key_rows (unlimited [block_const]) block_const = [ []; [] ] /\
  block_rows block_const
  = [ [FUInt64 7; FString "x"]; [FUInt64 7; FString "x"] ] /\
  bool_decide
    (NoDup (concat (map (key_rows (unlimited [block_const]))
                        (returned (read_n 1 (unlimited [block_const])).1))))
  = false.
Proof. vm_compute. repeat split; reflexivity. Qed.

(** Nor do the keys of the set tell rows apart across blocks that do not
    agree on which key columns are constant: the row [(1, x)] is handed
    out twice, under the keys [[1]] and [[1; x]]. *)
Example uniqueness_needs_agreeing_key_columns :
  (read_n 2 (unlimited [block_b_const; block_b_plain])).1
  = [Ok block_b_const; Ok block_b_plain] /\
  returned_rows (read_n 2 (unlimited [block_b_const; block_b_plain])).1
  = [ [FUInt64 1; FString "x"]; [FUInt64 1; FString "x"] ] /\
  returned_key_values (unlimited [block_b_const; block_b_plain])
    (read_n 2 (unlimited [block_b_const; block_b_plain])).1
  = [ [FUInt64 1; FString "x"]; [FUInt64 1; FString "x"] ] /\
  emitted_keys (unlimited [block_b_const; block_b_plain])
    (read_n 2 (unlimited [block_b_const; block_b_plain])).1
  = [ [FUInt64 1]; [FUInt64 1; FString "x"] ].
Proof. vm_compute. repeat split; reflexivity. Qed.

Lemma uniqueness_of_compacted_blocks_witness :
  Forall wf_block [block1; block_const; block2] /\
  NoDup (emitted_keys (unlimited [block1; block_const; block2])
           (read_n 4 (unlimited [block1; block_const; block2])).1) /\
  same_key_columns (all_columns [block1_k; block2_k]) [false; true; false]
    [block1_k; block2_k] /\
  NoDup (map (plain_part [false; true; false])
           (returned_key_values (all_columns [block1_k; block2_k])
              (read_n 3 (all_columns [block1_k; block2_k])).1)) /\
  NoDup (returned_key_values (all_columns [block1_k; block2_k])
           (read_n 3 (all_columns [block1_k; block2_k])).1).
Proof.
  assert (Hwf : Forall wf_block [block1; block_const; block2])
    by (repeat constructor).
  assert (Hwf_k : Forall wf_block [block1_k; block2_k])
    by (repeat constructor).
  assert (Hsame : same_key_columns (all_columns [block1_k; block2_k])
                    [false; true; false] [block1_k; block2_k])
    by (repeat constructor).
  split; [exact Hwf|]. split.
  - exact (proj1 (uniqueness_of_compacted_blocks
                    [block1; block_const; block2] 0 0 THROW 0
                    ["a"; "b"]%string 4 Hwf)).
  - split; [exact Hsame|].
    destruct (proj2 (uniqueness_of_compacted_blocks
                       [block1_k; block2_k] 0 0 THROW 0 [] 3 Hwf_k)
                _ Hsame) as (_ & Hplain & Hall); [left|].
    split; [exact Hplain | exact Hall].
Defined.

(** C2, as stated, fails: after the pull that met the limit in mode
    [BREAK], the next pull hands out a block. *)
Lemma break_then_block :
  (read_n 3 (limited BREAK [block1; block2; block_const])).1
  = [Ok block1; Ok Block_empty; Ok block_const] /\
  checkLimits (limited_after1 BREAK [block2; block_const]) = true /\
  checkLimits (readImpl (limited_after1 BREAK [block2; block_const])).2 = false.
Proof. vm_compute. repeat split; reflexivity. Qed.

Lemma break_mode_limit_witness :
  (readImpl (limited_after1 BREAK [block2; block1])).1 = Ok Block_empty /\
  (read_n 2 (readImpl (limited_after1 BREAK [block2; block1])).2).1
  = [Ok Block_empty; Ok Block_empty] /\
  (NoDup (emitted_keys (limited BREAK [block1; block2])
            (read_n 3 (limited BREAK [block1; block2])).1) /\
   N.of_nat (length
     (emitted_keys (limited BREAK [block1; block2])
        (read_n 3 (limited BREAK [block1; block2])).1))
   <= 3) /\
  NoDup (map (plain_part [false; true; false])
           (returned_key_values (limited BREAK [block1_k; block2_k])
              (read_n 3 (limited BREAK [block1_k; block2_k])).1)) /\
  NoDup (returned_key_values (limited BREAK [block1_k; block2_k])
           (read_n 3 (limited BREAK [block1_k; block2_k])).1) /\
  N.of_nat (length
    (returned_rows (read_n 3 (limited BREAK [block1_k; block2_k])).1))
  <= 3.
Proof.
  destruct break_mode_limit as (Hdetect & Hafter & Hkeys & Hrows).
  split; [|split; [|split]].
  - apply Hdetect; vm_compute; reflexivity.
  - apply (Hafter _ 2%nat); [reflexivity | vm_compute; reflexivity |].
    vm_compute. repeat constructor.
  - assert (Hwf : Forall wf_block [block1; block2]) by (repeat constructor).
    destruct (Hkeys [block1; block2] 3 0 0 [] 3%nat Hwf) as [Hnd Hlen].
    split; [exact Hnd|]. apply Hlen. discriminate.
  - assert (Hwf : Forall wf_block [block1_k; block2_k])
      by (repeat constructor).
    assert (Hsame : same_key_columns (limited BREAK [block1_k; block2_k])
                      [false; true; false] [block1_k; block2_k])
      by (repeat constructor).
    destruct (Hrows [block1_k; block2_k] 3 0 0 [] 3%nat [false; true; false]
                Hwf Hsame) as (Hplain & Hall & Hlen); [left|].
    split; [exact Hplain|]. split; [exact Hall|]. apply Hlen. discriminate.
Defined.

Lemma no_key_passthrough_witness :
  readImpl (unlimited [block_const; block2])
  = (Ok block_const, unlimited [block2]).
Proof.
  refine (proj1 (no_key_passthrough
                   (unlimited [block_const; block2])
                   (unlimited [block_const; block2]) block_const [block2]
                   _ _ _)).
  - apply pulls_first. reflexivity.
  - discriminate.
  - vm_compute. reflexivity.
Defined.

Lemma throw_mode_limit_witness :
  (readImpl (limited_after1 THROW [block2])).1
  = Throw (mkException
             "DISTINCT-Set size limit exceeded. Rows: 4, limit: 3. Bytes: 64, limit: 0."
             SET_SIZE_LIMIT_EXCEEDED) /\
  getTotalRowCount (data (readImpl (limited THROW [block1; block2])).2) <= 3.
Proof.
  destruct throw_mode_limit as (Hthrow & Hkeep).
  split.
  - rewrite (Hthrow (limited_after1 THROW [block2])
               (limited_after1 THROW [block2]) block2 []
               (map column block2)
               (pass_block2 THROW).1 (pass_block2 THROW).2 3);
      try (vm_compute; reflexivity); try discriminate.
    apply pulls_first. reflexivity.
  - apply (Hkeep (limited THROW [block1; block2]) block1 3);
      vm_compute; reflexivity.
Defined.

Lemma limit_enforcer_witness :
  getTotalRowCount (pass_block2 THROW).1
  = getTotalRowCount (data (limited_after1 THROW [block2]))
    + N.of_nat (countBytesInFilter (pass_block2 THROW).2) /\
  readImpl_turn (limited_after1 THROW [block2]) block2
  = (if checkLimits
          (set_data (limited_after1 THROW [block2]) (pass_block2 THROW).1)
     then Return (Ok (filter_block block2 (pass_block2 THROW).2))
            (set_data (limited_after1 THROW [block2]) (pass_block2 THROW).1)
     else Return
            (on_overflow
               (set_data (limited_after1 THROW [block2]) (pass_block2 THROW).1))
            (set_data (limited_after1 THROW [block2]) (pass_block2 THROW).1)).
Proof.
  apply (proj2 limit_enforcer
           (limited_after1 THROW [block2]) block2 (map column block2)).
  - discriminate.
  - vm_compute. reflexivity.
  - discriminate.
  - vm_compute. reflexivity.
  - vm_compute. discriminate.
Defined.

Lemma empty_result_suppression_witness :
  ((getKeyColumns seen_after1 block2_new = Ok [] /\
    block2_new ∈ children seen_after1) \/
   (has_key_columns seen_after1 block2_new = true /\
    (1 <= rows block2_new)%nat /\
    length (key_rows seen_after1 block2_new) = rows block2_new /\
    forall key,
      key ∈ key_rows seen_after1 block2_new ->
      key ∉ stored (data seen_after1))) /\
  exists self',
    readImpl_turn seen_after1 block_seen = Continue self' /\
    stored (data self') = stored (data seen_after1) /\
    readImpl seen_after1 = readImpl_loop self' [block2].
Proof.
  destruct empty_result_suppression as (Hout & Hdrop).
  split.
  - apply Hout.
    + vm_compute. repeat constructor.
    + vm_compute. reflexivity.
    + discriminate.
  - apply (Hdrop seen_after1 seen_after1 block_seen [block2]
             (map column block_seen)).
    + apply pulls_first. reflexivity.
    + discriminate.
    + vm_compute. reflexivity.
    + discriminate.
    + intros key Hkey. vm_compute in Hkey. vm_compute.
      repeat (apply elem_of_cons in Hkey as [->|Hkey]);
        [left | left | inversion Hkey].
Defined.

Lemma hint_early_stop_witness :
  children hinted_after1 = [block2] /\
  readImpl hinted_after1 = (Ok Block_empty, hinted_after1).
Proof.
  split; [vm_compute; reflexivity|].
  refine (proj1 (hint_early_stop hinted_after1 _ _)).
  - vm_compute. discriminate.
  - vm_compute. discriminate.
Defined.

Lemma order_preservation_witness :
  (map name (filter_block block2 [false; true]) = map name block2 /\
   block_rows (filter_block block2 [false; true])
   = select [false; true] (block_rows block2) /\
   block_rows (filter_block block2 [false; true])
     !! countBytesInFilter (take 1 [false; true])
   = Some [FUInt64 3; FString "z"]) /\
  (exists at_ block rest,
      pulls_block seen_after1 (children seen_after1) at_ block rest /\
      ((getKeyColumns seen_after1 block = Ok [] /\ block2_new = block) \/
       exists cols,
         getKeyColumns seen_after1 block = Ok cols /\ cols <> [] /\
         select (pass at_ block cols).2 (rows_of cols (rows block)) <> [] /\
         checkLimits (set_data at_ (pass at_ block cols).1) = true /\
         block2_new = filter_block block (pass at_ block cols).2)) /\
  (readImpl (unlimited [block_const; block2])).1 = Ok block_const /\
  returned_rows
    (read_n 4 (unlimited [block1; block_const; block_seen; block2])).1
    `sublist_of`
    concat (map block_rows [block1; block_const; block_seen; block2]).
Proof.
  destruct order_preservation as (Hcompact & Hblock & _ & Hrows).
  split; [|split; [|split]].
  - destruct (Hcompact block2 [false; true]) as (Hnames & _ & Hsel & _ & Hat);
      [repeat constructor | reflexivity |].
    split; [exact Hnames|]. split; [exact Hsel|].
    apply (Hat 1%nat); reflexivity.
  - apply (Hblock seen_after1 block2_new); [discriminate|].
    vm_compute. reflexivity.
  - apply (Hblock (unlimited [block_const; block2]) block_const);
      [discriminate|].
    exists (unlimited [block_const; block2]), block_const, [block2].
    split; [apply pulls_first; reflexivity|].
    left. split; [vm_compute|]; reflexivity.
  - apply (Hrows (unlimited [block1; block_const; block_seen; block2]) 4%nat).
    repeat constructor.
Defined.

Lemma missing_key_column_fails_witness :
  exists e,
    code e = NOT_FOUND_COLUMN_IN_BLOCK /\
    getKeyColumns (misnamed [block1; block2]) block1 = Throw e /\
    readImpl (misnamed [block1; block2])
    = (Throw e, set_children (misnamed [block1; block2]) [block2]) /\
    stored (data (misnamed [block1; block2]))
    = stored (data (misnamed [block1; block2])).
Proof.
  apply (missing_key_column_fails
           (misnamed [block1; block2]) (misnamed [block1; block2])
           block1 [block2] "c"%string).
  - apply pulls_first. reflexivity.
  - discriminate.
  - right. left.
  - intros elem Hin.
    repeat (apply elem_of_cons in Hin as [->|Hin]);
      [discriminate | discriminate | inversion Hin].
Defined.

Lemma file_error_kinds_witness :
  throws (ReadBufferFromFile_open "denied" (-1)) CANNOT_OPEN_FILE /\
  close (mkReadBuffer 3 "data.bin") = Ok (mkReadBuffer (-1) "data.bin").
Proof.
  destruct (file_error_kinds "denied" (-1) (mkReadBuffer 3 "data.bin"))
    as (_ & Hopen & _ & Hclose).
  split.
  - apply Hopen; vm_compute; [reflexivity | discriminate].
  - apply Hclose. reflexivity.
Defined.

(** ** Runs for the further properties *)

Lemma buildFilter_flags_first_occurrences_witness :
  length [true; false; true] = 3%nat /\
  forall i, (i < 3)%nat ->
    (([true; false; true] !! i = Some true) <->
     (getKey (map column block_dup) i ∉ [[FUInt64 9; FString "z"]]) /\
     forall j, (j < i)%nat ->
       getKey (map column block_dup) j <> getKey (map column block_dup) i).
Proof.
  apply (buildFilter_flags_first_occurrences
           [[FUInt64 9; FString "z"]]
           [[FUInt64 9; FString "z"]; [FUInt64 1; FString "x"];
            [FUInt64 2; FString "y"]]
           (map column block_dup) [false; false; false]).
  - reflexivity.
  - vm_compute. reflexivity.
Defined.

Lemma buildFilter_grows_table_witness :
  ([[FUInt64 9; FString "z"]]
     `prefix_of` [[FUInt64 9; FString "z"]; [FUInt64 1; FString "x"];
                  [FUInt64 2; FString "y"]]) /\
  (forall key,
      key ∈ [[FUInt64 9; FString "z"]; [FUInt64 1; FString "x"];
             [FUInt64 2; FString "y"]] <->
      key ∈ [[FUInt64 9; FString "z"]] \/
      exists i, (i < 3)%nat /\ getKey (map column block_dup) i = key) /\
  length [[FUInt64 9; FString "z"]; [FUInt64 1; FString "x"];
          [FUInt64 2; FString "y"]]
  = (length [[FUInt64 9; FString "z"]]
     + countBytesInFilter [true; false; true])%nat /\
  (NoDup [[FUInt64 9; FString "z"]] ->
   NoDup [[FUInt64 9; FString "z"]; [FUInt64 1; FString "x"];
          [FUInt64 2; FString "y"]]).
Proof.
  apply (buildFilter_grows_table
           [[FUInt64 9; FString "z"]] _
           (map column block_dup) [false; false; false] [true; false; true]).
  - reflexivity.
  - vm_compute. reflexivity.
Defined.

Lemma buildFilter_second_pass_witness :
  buildFilter [[FUInt64 9; FString "z"]; [FUInt64 1; FString "x"];
               [FUInt64 2; FString "y"]]
    (map column block_dup) [true; true; true] 3
  = ([[FUInt64 9; FString "z"]; [FUInt64 1; FString "x"];
      [FUInt64 2; FString "y"]], [false; false; false]).
Proof.
  apply (buildFilter_second_pass
           [[FUInt64 9; FString "z"]] _
           (map column block_dup) [false; false; false] [true; false; true]).
  - reflexivity.
  - reflexivity.
  - vm_compute. reflexivity.
Defined.

Lemma getKeyColumns_without_names_witness :
  getKeyColumns (limited THROW []) block_mixed = Ok (map column block1).
Proof.
  rewrite (getKeyColumns_without_names (limited THROW []) block_mixed eq_refl).
  reflexivity.
Defined.

Lemma getKeyColumns_with_names_witness :
  exists elems,
    map name elems = ["a"; "b"]%string /\
    Forall (fun elem => elem ∈ block_mixed) elems /\
    getKeyColumns (unlimited []) block_mixed
    = Ok (List.filter (fun c => negb (isConst c)) (map column elems)).
Proof.
  apply (getKeyColumns_with_names (unlimited []) block_mixed).
  - discriminate.
  - intros n Hn.
    repeat (apply elem_of_cons in Hn as [->|Hn]); [| |inversion Hn].
    + eexists. split; [left | reflexivity].
    + eexists. split; [right; right; left | reflexivity].
Defined.

Lemma getKeyColumns_returns_plain_columns_witness :
  Forall (fun c => isConst c = false /\ c ∈ map column block_mixed)
         (map column block1) /\
  (length (map column block1) <= 3)%nat.
Proof.
  apply (getKeyColumns_returns_plain_columns (limited THROW [])
           block_mixed (map column block1)).
  vm_compute. reflexivity.
Defined.

Lemma unlimited_stream_emits_first_occurrences_witness :
  emitted_keys (unlimited [block1; block_seen; block2])
    (read_n 3 (unlimited [block1; block_seen; block2])).1
  = first_occurrences (stored (data (unlimited [block1; block_seen; block2])))
      (concat (map (key_rows (unlimited [block1; block_seen; block2]))
                   (children (unlimited [block1; block_seen; block2])))) /\
  stored (data (read_n 3 (unlimited [block1; block_seen; block2])).2)
  = stored (data (unlimited [block1; block_seen; block2]))
    ++ first_occurrences (stored (data (unlimited [block1; block_seen; block2])))
         (concat (map (key_rows (unlimited [block1; block_seen; block2]))
                      (children (unlimited [block1; block_seen; block2])))).
Proof.
  apply (unlimited_stream_emits_first_occurrences 3
           (unlimited [block1; block_seen; block2])).
  - intros [|c [|c' cols]]; discriminate.
  - reflexivity.
  - reflexivity.
  - reflexivity.
  - repeat constructor.
  - repeat constructor.
  - simpl. lia.
Defined.

Lemma stream_ends_witness :
  read_n 3 (read_n 2 (limited BREAK [block1; block2])).2
  = (repeat (Ok Block_empty) 3, (read_n 2 (limited BREAK [block1; block2])).2).
Proof.
  apply (stream_ends 2 3 (limited BREAK [block1; block2])). simpl. lia.
Defined.

Lemma read_n_keeps_invariants_witness :
  NoDup (stored (data (read_n 3 (limited BREAK [block1; block2])).2)).
Proof.
  apply (read_n_keeps_invariants 3 (limited BREAK [block1; block2])).
  apply NoDup_nil_2.
Defined.

Lemma no_compacted_block_after_violation_witness :
  checkLimits (read_n 2 (limited_after2 THROW)).2 = false /\
  Forall (not_compacted (limited_after2 THROW))
         (read_n 2 (limited_after2 THROW)).1.
Proof.
  apply (no_compacted_block_after_violation 2 (limited_after2 THROW)).
  vm_compute. reflexivity.
Defined.

Lemma limit_violation_outcome_witness :
  readImpl (limited_after1 ANY [block2])
  = (Throw (mkException "Logical error: unknown overflow mode" LOGICAL_ERROR),
     set_children
       (set_data (limited_after1 ANY [block2]) (pass_block2 ANY).1) []) /\
  forall i, (i < rows block2)%nat ->
            getKey (map column block2) i ∈ stored (pass_block2 ANY).1.
Proof.
  apply (limit_violation_outcome (limited_after1 ANY [block2])
           (limited_after1 ANY [block2]) block2 [] (map column block2)
           (pass_block2 ANY).1 (pass_block2 ANY).2).
  - apply pulls_first. reflexivity.
  - discriminate.
  - vm_compute. reflexivity.
  - discriminate.
  - vm_compute. reflexivity.
  - vm_compute. discriminate.
  - vm_compute. reflexivity.
Defined.

Lemma open_outcomes_witness :
  ReadBufferFromFile_open "data.bin" (-1) = Ok (mkReadBuffer 3 "data.bin") /\
  throws (ReadBufferFromFile_open "denied" (-1)) CANNOT_OPEN_FILE.
Proof.
  split.
  - apply (proj1 (open_outcomes "data.bin" (-1))).
    split; [vm_compute; discriminate|]. split; [left; reflexivity | reflexivity].
  - apply (proj1 (proj2 (open_outcomes "denied" (-1)))).
    left. split; [reflexivity | vm_compute; discriminate].
Defined.

Lemma open_flags_strips_O_DIRECT_witness :
  @open_flags example_apple_platform 16385 = 1%Z /\
  Z.land (@open_flags example_apple_platform 16385) 16384 = 0%Z /\
  @open_flags example_platform (-1) = 0%Z.
Proof.
  destruct (@open_flags_strips_O_DIRECT example_apple_platform 16385)
    as [Hstrip _].
  destruct (@open_flags_strips_O_DIRECT example_platform (-1)) as [_ Hkeep].
  split; [reflexivity|]. split.
  - apply Hstrip. reflexivity.
  - rewrite Hkeep; reflexivity.
Defined.

Lemma descriptor_closed_once_witness :
  destructor_closes (mkReadBuffer 3 "data.bin")
  = [(sys_open "data.bin" (open_flags (-1))).1] /\
  destructor_closes (mkReadBuffer (-1) "data.bin") = [] /\
  file_name (mkReadBuffer (-1) "data.bin") = "data.bin"%string.
Proof.
  apply (descriptor_closed_once "data.bin" (-1)
           (mkReadBuffer 3 "data.bin") (mkReadBuffer (-1) "data.bin")).
  - reflexivity.
  - vm_compute. discriminate.
  - reflexivity.
Defined.

Lemma of_fd_name_tells_descriptor_witness :
  file_name (ReadBufferFromFile_of_fd 3) = "(fd = 3)"%string /\ 3%Z = 3%Z.
Proof.
  split; [reflexivity|].
  apply (of_fd_name_tells_descriptor 3 3). reflexivity.
Defined.

Lemma getID_tells_source_witness :
  getID (getID "Source") = "Distinct(Distinct(Source))"%string /\
  getID "Source" = getID "Source".
Proof.
  split; [reflexivity|].
  apply (getID_tells_source (getID "Source") (getID "Source")).
  reflexivity.
Defined.
